(** * CPP_POSIX_Threading: a shallow embedding of the pthread wrappers

    The library wraps POSIX mutexes, condition variables, semaphores,
    reader/writer locks and threads in C++ classes that keep bookkeeping
    fields next to the native handle and throw on misuse.  Each method is
    embedded here as a program of a small state-and-exception monad whose
    primitive steps are the native calls of the method.  What the operating
    system answers to a native call is not decided by the library, so it is
    an input: the [script] of a [world] lists the answers in call order. *)

From Stdlib Require Import ZArith String List Bool Lia.
From stdpp Require Import gmap.
Import ListNotations.
Open Scope Z_scope.

(** ** Exceptions, native calls and their answers *)

(** The dynamic type of a thrown exception with its [what()] text (without the
    function-name prefix the sources prepend), and for [std::system_error]
    the failed call and its error code. *)
Inductive exception : Type :=
| logic_error (what : string)
| invalid_argument (what : string)
| runtime_error (what : string)
| system_error (what : string) (code : Z).

(** <cerrno> values on Linux. *)
Definition EINTR : Z := 4.
Definition EAGAIN : Z := 11.
Definition EBUSY : Z := 16.
Definition EINVAL : Z := 22.
Definition ETIMEDOUT : Z := 110.

(** src/unnamed/part_005:19-20.  src/pthread_timeout.cpp and src/Thread.cpp
    take the two from common_header/defines.hpp, which is not among the
    sources. *)
Definition NSEC_PER_SEC : Z := 1000000000.
Definition NSEC_PER_USEC : Z := 1000.

Definition pthread_t : Type := Z.

Record timespec : Type := Timespec { tv_sec : Z; tv_nsec : Z }.
Record timeval : Type := Timeval { tv_sec' : Z; tv_usec : Z }.

(** The native calls the library issues. *)
Inductive native : Type :=
| PTHREAD_MUTEX_LOCK | PTHREAD_MUTEX_TRYLOCK | PTHREAD_MUTEX_TIMEDLOCK
| PTHREAD_MUTEX_UNLOCK
| PTHREAD_COND_WAIT | PTHREAD_COND_TIMEDWAIT | PTHREAD_COND_SIGNAL
| PTHREAD_COND_BROADCAST
| SEM_INIT | SEM_WAIT | SEM_TIMEDWAIT | SEM_POST
| PTHREAD_RWLOCK_UNLOCK
| PTHREAD_JOIN | PTHREAD_TRYJOIN_NP | PTHREAD_TIMEDJOIN_NP
| GETTIMEOFDAY.

(** POSIX: the calls that may suspend the calling thread. *)
Definition may_block (c : native) : bool :=
  match c with
  | PTHREAD_MUTEX_LOCK | PTHREAD_MUTEX_TIMEDLOCK
  | PTHREAD_COND_WAIT | PTHREAD_COND_TIMEDWAIT
  | SEM_WAIT | SEM_TIMEDWAIT
  | PTHREAD_JOIN | PTHREAD_TIMEDJOIN_NP => true
  | _ => false
  end.

(** What the environment answers to one native call: the value returned, the
    value left in [errno] when the call fails that way, the clock for
    [gettimeofday], the exit value for the join calls, and what the other
    threads did to the object's fields while the caller was inside a call
    that lets them run. *)
Record reply (Obj : Type) : Type := Reply {
  ret_code : Z;
  err : Z;
  clock : timeval;
  exit_value : Z;
  meanwhile : Obj -> Obj
}.
Arguments Reply {Obj}.
Arguments ret_code {Obj}.
Arguments err {Obj}.
Arguments clock {Obj}.
Arguments exit_value {Obj}.
Arguments meanwhile {Obj}.

(** The call returns [code]; nothing else happens. *)
Definition answers {Obj : Type} (code : Z) : reply Obj :=
  Reply code 0 (Timeval 0 0) 0 (fun o => o).
Definition succeeds {Obj : Type} : reply Obj := answers 0.
(** The call returns -1 and sets [errno]. *)
Definition fails_errno {Obj : Type} (e : Z) : reply Obj :=
  Reply (-1) e (Timeval 0 0) 0 (fun o => o).

(** ** The world one method call runs in *)

Record world (Obj : Type) : Type := World {
  self : pthread_t;                (* pthread_self() of the caller *)
  errno : Z;                       (* the caller's errno *)
  this : Obj;                      (* the fields of *this *)
  script : list (reply Obj);       (* the answers to come *)
  log : list (native * Obj)        (* native calls issued, oldest first, each
                                      with the fields as they stood then *)
}.
Arguments World {Obj}.
Arguments self {Obj}.
Arguments errno {Obj}.
Arguments this {Obj}.
Arguments script {Obj}.
Arguments log {Obj}.

Inductive outcome (Obj A : Type) : Type :=
| Return (a : A) (w : world Obj)        (* the method returned [a] *)
| Throw (e : exception) (w : world Obj) (* the method threw [e] *)
| Suspended (w : world Obj).            (* the caller is still inside a native call *)
Arguments Return {Obj A}.
Arguments Throw {Obj A}.
Arguments Suspended {Obj A}.

Section Monad.
Context {Obj : Type}.

Definition M (A : Type) : Type := world Obj -> outcome Obj A.

Definition ret {A : Type} (a : A) : M A := fun w => Return a w.

Definition bind {A B : Type} (m : M A) (k : A -> M B) : M B :=
  fun w =>
    match m w with
    | Return a w' => k a w'
    | Throw e w' => Throw e w'
    | Suspended w' => Suspended w'
    end.

Definition throw {A : Type} (e : exception) : M A := fun w => Throw e w.

(** The caller stays inside the native call it has issued. *)
Definition suspend {A : Type} : M A := fun w => Suspended w.

Definition load {A : Type} (field : Obj -> A) : M A :=
  fun w => Return (field (this w)) w.

Definition store (upd : Obj -> Obj) : M unit :=
  fun w => Return tt (World (self w) (errno w) (upd (this w)) (script w) (log w)).

Definition pthread_self : M pthread_t := fun w => Return (self w) w.

Definition get_errno : M Z := fun w => Return (errno w) w.

Definition set_errno (e : Z) : M unit :=
  fun w => Return tt (World (self w) e (this w) (script w) (log w)).

(** Issue the native call [c]: it is logged with the fields as they stand,
    and the next answer of the script is consumed.  With no answer left the
    call has not returned. *)
Definition issue (c : native) : M (reply Obj) :=
  fun w =>
    let w' := World (self w) (errno w) (this w) (tl (script w))
                    (log w ++ [(c, this w)]) in
    match script w with
    | [] => Suspended w'
    | r :: _ => Return r w'
    end.

(** A pthread_* call: the error number is the return value. *)
Definition pthread_call (c : native) : M Z :=
  bind (issue c) (fun r => ret (ret_code r)).

(** A call during which the other threads run: the fields are theirs
    until it returns. *)
Definition yielding_call (c : native) : M Z :=
  bind (issue c) (fun r =>
    bind (store (meanwhile r)) (fun _ => ret (ret_code r))).
End Monad.
Arguments M : clear implicits.

Declare Scope cpp_scope.
Delimit Scope cpp_scope with cpp.
Notation "x <- c1 ;; c2" := (bind c1 (fun x => c2))
  (at level 100, c1 at next level, c2 at level 200, right associativity)
  : cpp_scope.
Notation "c1 ;; c2" := (bind c1 (fun _ => c2))
  (at level 100, c2 at level 200, right associativity) : cpp_scope.
Open Scope cpp_scope.

(** Modelled from the spec: the helper [sysexcept] (sysexcept.hpp is not part
    of the sources).  Section 7: a failed OS call raises SystemError, which
    carries the originating operation name and the OS error code.  Where a
    source writes sysexcept(call(...), "call", errno), errno is taken as read
    after the call has returned. *)
Definition sysexcept {Obj : Type} (failed : bool) (what : string) (code : Z)
  : M Obj unit :=
  if failed then throw (system_error what code) else ret tt.

(** gettimeofday(&current_time, nullptr): the return value and the clock. *)
Definition gettimeofday {Obj : Type} : M Obj (Z * timeval) :=
  r <- issue GETTIMEOFDAY ;;
  if ret_code r =? 0 then ret (0, clock r)
  else set_errno (err r) ;; ret (ret_code r, clock r).

(** [time_t], [suseconds_t] and the [long] of [tv_nsec] are signed 64-bit
    integers on Linux x86-64; sums and products of them are taken as the
    machine takes them, modulo 2^64 into [-2^63, 2^63). *)
Definition long (x : Z) : Z := (x + 2 ^ 63) mod 2 ^ 64 - 2 ^ 63.
Arguments long : simpl never.

(** The text of the exception of pthread_timeout, after the function name. *)
Definition INVALID_TIMESPEC : string := ": invalid timespec".

(** src/unnamed/part_005:26-48, src/pthread_timeout.cpp:24-46 *)
Definition pthread_timeout {Obj : Type} (ts : timespec) : M Obj timespec :=
  if (tv_sec ts <? 0) || (tv_nsec ts <? 0) || (NSEC_PER_SEC <=? tv_nsec ts)
  then throw (invalid_argument INVALID_TIMESPEC)
  else
    now <- gettimeofday ;;
    e <- get_errno ;;
    sysexcept (negb (fst now =? 0)) "gettimeofday" e ;;
    let current_time := snd now in
    let sec := long (tv_sec ts + tv_sec' current_time) in
    let nsec :=
      long (tv_nsec ts + long (tv_usec current_time * NSEC_PER_USEC)) in
    if NSEC_PER_SEC <=? nsec
    then ret (Timespec (long (sec + 1)) (long (nsec - NSEC_PER_SEC)))
    else ret (Timespec sec nsec).

(** The durations the timed methods accept: tv_sec >= 0 and
    0 <= tv_nsec < NSEC_PER_SEC. *)
Definition valid (time : timespec) : Prop :=
  0 <= tv_sec time /\ 0 <= tv_nsec time < NSEC_PER_SEC.

(** A native call of the methods whose calls need no place in the log: the
    next answer of the script is consumed and its code returned; with no
    answer left the call has not returned. *)
Definition native_code {Obj : Type} : M Obj Z :=
  fun w =>
    match script w with
    | [] => Suspended w
    | r :: rest =>
        Return (ret_code r) (World (self w) (errno w) (this w) rest (log w))
    end.

(** The fields a run leaves, however it ends. *)
Definition fields_after {Obj A : Type} (r : outcome Obj A) : Obj :=
  match r with Return _ w | Throw _ w | Suspended w => this w end.

(** [m] run [k] times in a row. *)
Fixpoint times {Obj : Type} (k : nat) (m : M Obj unit) : M Obj unit :=
  match k with
  | O => ret tt
  | S k' => m ;; times k' m
  end.

(** The same object and script seen from the thread [t]. *)
Definition as_thread {Obj : Type} (t : pthread_t) (w : world Obj) : world Obj :=
  World t (errno w) (this w) (script w) (log w).

(** ** Mutex (src/unnamed/part_007, and the copy after src/Condition.cpp) *)

Module Mutex.

(** src/unnamed/part_000: the bookkeeping fields next to the native
    [pthread_mutex_t], which only the native calls touch. *)
Record obj : Type := Obj { lock_thread : pthread_t; locked : bool }.

Definition set_lock_thread (t : pthread_t) (m : obj) : obj := Obj t (locked m).
Definition set_locked (b : bool) (m : obj) : obj := Obj (lock_thread m) b.

Definition MUTEX_NOT_LOCKED : string :=
  ": Call of Mutex::unlock(), but Mutex was never locked".
Definition LOCKING_THREAD_MISSMATCH : string :=
  ": Calling pthread_mutex_unlock() with a mutex that the calling thread does not hold will result in undefined behavior.".
Definition DOUBLE_LOCK : string :=
  ": A mutex must not be locked twice in the same thread.".

(** The error kinds of the specification. *)
Definition DoubleLock : exception := logic_error DOUBLE_LOCK.
Definition NotLocked : exception := logic_error MUTEX_NOT_LOCKED.
Definition OwnerMismatch : exception := logic_error LOCKING_THREAD_MISSMATCH.

(** The owner the specification speaks of. *)
Definition owner (m : obj) : option pthread_t :=
  if locked m then Some (lock_thread m) else None.

(** Mutex::Mutex() *)
Definition Mutex : obj := Obj 0 false.

(** Mutex::lock, part_007:125-142 *)
Definition lock : M obj unit :=
  l <- load locked ;;
  t <- load lock_thread ;;
  me <- pthread_self ;;
  if l && (t =? me) then throw (logic_error DOUBLE_LOCK)
  else
    temp <- pthread_call PTHREAD_MUTEX_LOCK ;;
    sysexcept (negb (temp =? 0)) "pthread_mutex_lock" temp ;;
    me <- pthread_self ;;
    store (set_lock_thread me) ;;
    store (set_locked true).

(** Mutex::unlock, part_007:144-166 and Condition.cpp:341-363 *)
Definition unlock : M obj unit :=
  l <- load locked ;;
  if negb l then throw (logic_error MUTEX_NOT_LOCKED)
  else
    me <- pthread_self ;;
    t <- load lock_thread ;;
    if negb (me =? t) then throw (logic_error LOCKING_THREAD_MISSMATCH)
    else
      store (set_locked false) ;;
      temp <- pthread_call PTHREAD_MUTEX_UNLOCK ;;
      if negb (temp =? 0)
      then store (set_locked true) ;;
           sysexcept true "pthread_mutex_unlock" temp
      else ret tt.

(** Mutex::trylock, part_007:168-187 *)
Definition trylock : M obj bool :=
  l <- load locked ;;
  t <- load lock_thread ;;
  me <- pthread_self ;;
  if l && (t =? me) then throw (logic_error DOUBLE_LOCK)
  else
    temp <- pthread_call PTHREAD_MUTEX_TRYLOCK ;;
    if negb (temp =? 0) && (temp =? EBUSY) then ret false
    else
      (if negb (temp =? 0) then sysexcept true "pthread_mutex_trylock" temp
       else ret tt) ;;
      me <- pthread_self ;;
      store (set_lock_thread me) ;;
      store (set_locked true) ;;
      ret true.

Module part_007.
(** Mutex::timedlock, part_007:189-209 *)
Definition timedlock (time : timespec) : M obj bool :=
  l <- load locked ;;
  t <- load lock_thread ;;
  me <- pthread_self ;;
  if l && (t =? me) then throw (logic_error DOUBLE_LOCK)
  else
    timeout_time <- pthread_timeout time ;;
    temp <- pthread_call PTHREAD_MUTEX_TIMEDLOCK ;;
    if negb (temp =? 0) && (temp =? ETIMEDOUT) then ret false
    else
      (if negb (temp =? 0) then sysexcept true "pthread_mutex_timedlock" temp
       else ret tt) ;;
      me <- pthread_self ;;
      store (set_lock_thread me) ;;
      store (set_locked true) ;;
      ret true.
End part_007.

Module Condition_cpp.
(** Mutex::timedlock, src/Condition.cpp:386-403 *)
Definition timedlock (time : timespec) : M obj bool :=
  timeout_time <- pthread_timeout time ;;
  temp <- pthread_call PTHREAD_MUTEX_TIMEDLOCK ;;
  if negb (temp =? 0) && (temp =? ETIMEDOUT) then ret false
  else
    (if negb (temp =? 0) then sysexcept true "pthread_mutex_timedlock" temp
     else ret tt) ;;
    me <- pthread_self ;;
    store (set_lock_thread me) ;;
    store (set_locked true) ;;
    ret true.
End Condition_cpp.

(** Mutex::is_locked, src/unnamed/part_000 *)
Definition is_locked : M obj bool := load locked.


End Mutex.

(** ** Semaphore (src/Semaphore.cpp and src/unnamed/part_008) *)

Module Semaphore.

(** <limits.h> on Linux *)
Definition SEM_VALUE_MAX : Z := 2147483647.
Definition EOVERFLOW : Z := 75.

(** unsigned int arithmetic *)
Definition uint (x : Z) : Z := x mod 2 ^ 32.

(** src/header/Semaphore.hpp:38-50.  [sem] is the count of the native
    semaphore. *)
Record obj : Type := Obj {
  sem : Z;
  locking_threads : gmap pthread_t bool;
  max_value : Z;
  current_value : Z;
  thread_queue : Z
}.

Definition set_sem (n : Z) (s : obj) : obj :=
  Obj n (locking_threads s) (max_value s) (current_value s) (thread_queue s).
Definition set_locking_threads (m : gmap pthread_t bool) (s : obj) : obj :=
  Obj (sem s) m (max_value s) (current_value s) (thread_queue s).
Definition set_current_value (n : Z) (s : obj) : obj :=
  Obj (sem s) (locking_threads s) (max_value s) n (thread_queue s).
Definition set_thread_queue (n : Z) (s : obj) : obj :=
  Obj (sem s) (locking_threads s) (max_value s) (current_value s) n.

Definition ZERO_VALUE : string :=
  ": initializing a semaphore with maximum value of 0 is pointless.".
Definition DOUBLE_WAIT : string :=
  ": Double wait within one thread is not allowed.".
Definition NOT_HOLDING : string :=
  ": Releasing a semaphore which the thread does not hold is not allowed.".

(** The error kinds of the specification. *)
Definition DoubleAcquire : exception := logic_error DOUBLE_WAIT.
Definition NotHeld : exception := logic_error NOT_HOLDING.
Definition InvalidArgument : exception := invalid_argument ZERO_VALUE.

(** *** The native semaphore (POSIX)

    An answer with a nonzero code makes the call fail with the answer's
    errno (EINTR, EINVAL, ...).  Otherwise the count decides. *)

Definition sem_init (value : Z) : M obj Z :=
  r <- issue SEM_INIT ;;
  if negb (ret_code r =? 0) then set_errno (err r) ;; ret (-1)
  else if SEM_VALUE_MAX <? value then set_errno EINVAL ;; ret (-1)
  else store (set_sem value) ;; ret 0.

(** With the count at zero the caller is suspended until another thread
    posts; a single call, which is all a run covers, ends there. *)
Definition sem_wait : M obj Z :=
  r <- issue SEM_WAIT ;;
  if negb (ret_code r =? 0) then set_errno (err r) ;; ret (-1)
  else
    n <- load sem ;;
    if 0 <? n then store (set_sem (n - 1)) ;; ret 0
    else suspend.

(** As [sem_wait], but the suspension ends at the deadline. *)
Definition sem_timedwait (abs_timeout : timespec) : M obj Z :=
  r <- issue SEM_TIMEDWAIT ;;
  if negb (ret_code r =? 0) then set_errno (err r) ;; ret (-1)
  else
    n <- load sem ;;
    if 0 <? n then store (set_sem (n - 1)) ;; ret 0
    else set_errno ETIMEDOUT ;; ret (-1).

Definition sem_post : M obj Z :=
  r <- issue SEM_POST ;;
  if negb (ret_code r =? 0) then set_errno (err r) ;; ret (-1)
  else
    n <- load sem ;;
    if SEM_VALUE_MAX <=? n then set_errno EOVERFLOW ;; ret (-1)
    else store (set_sem (n + 1)) ;; ret 0.

(** *** The class *)

(** locking_threads[thread] read: std::unordered_map::operator[] inserts a
    value-initialised entry for a key that is not there. *)
Definition locking_threads_at (thread : pthread_t) : M obj bool :=
  m <- load locking_threads ;;
  match m !! thread with
  | Some b => ret b
  | None => store (set_locking_threads (<[thread := false]> m)) ;; ret false
  end.

(** locking_threads[thread] = b *)
Definition locking_threads_assign (thread : pthread_t) (b : bool) : M obj unit :=
  m <- load locking_threads ;;
  store (set_locking_threads (<[thread := b]> m)).

Definition thread_queue_incr : M obj unit :=
  n <- load thread_queue ;; store (set_thread_queue (uint (n + 1))).
Definition thread_queue_decr : M obj unit :=
  n <- load thread_queue ;; store (set_thread_queue (uint (n - 1))).
Definition current_value_incr : M obj unit :=
  n <- load current_value ;; store (set_current_value (uint (n + 1))).
Definition current_value_decr : M obj unit :=
  n <- load current_value ;; store (set_current_value (uint (n - 1))).

(** The member initialisers max_value(value), thread_queue(0): the map is
    default-constructed, [current_value] and the native semaphore keep what
    the storage held. *)
Definition initialisers (value : Z) (raw : obj) : obj :=
  Obj (sem raw) ∅ value (current_value raw) 0.

(** Semaphore::wait, Semaphore.cpp:73-87 and part_008:97-112 *)
Definition wait : M obj unit :=
  thread <- pthread_self ;;
  held <- locking_threads_at thread ;;
  if held then throw (logic_error DOUBLE_WAIT)
  else
    thread_queue_incr ;;
    temp <- sem_wait ;;
    e <- get_errno ;;
    sysexcept (negb (temp =? 0)) "sem_wait" e ;;
    current_value_incr ;;
    thread_queue_decr ;;
    locking_threads_assign thread true.

(** Semaphore::trywait, Semaphore.cpp:89-114 and part_008:114-140 *)
Definition trywait : M obj bool :=
  thread <- pthread_self ;;
  held <- locking_threads_at thread ;;
  if held then throw (logic_error DOUBLE_WAIT)
  else
    thread_queue_incr ;;
    temp <- sem_wait ;;
    e <- get_errno ;;
    if negb (temp =? 0) && (e =? EAGAIN) then thread_queue_decr ;; ret false
    else
      (if negb (temp =? 0) then sysexcept true "sem_wait" e else ret tt) ;;
      current_value_incr ;;
      thread_queue_decr ;;
      locking_threads_assign thread true ;;
      ret true.

(** Semaphore::timedwait, Semaphore.cpp:116-143 and part_008:142-170 *)
Definition timedwait (time : timespec) : M obj bool :=
  thread <- pthread_self ;;
  held <- locking_threads_at thread ;;
  if held then throw (logic_error DOUBLE_WAIT)
  else
    timeout <- pthread_timeout time ;;
    thread_queue_incr ;;
    temp <- sem_timedwait timeout ;;
    e <- get_errno ;;
    if negb (temp =? 0) && (e =? ETIMEDOUT) then thread_queue_decr ;; ret false
    else
      (if negb (temp =? 0) then sysexcept true "sem_wait" e else ret tt) ;;
      current_value_incr ;;
      thread_queue_decr ;;
      locking_threads_assign thread true ;;
      ret true.

Module part_008.
(** Semaphore::Semaphore, part_008:45-53 *)
Definition Semaphore (value : Z) : M obj unit :=
  store (initialisers value) ;;
  if value =? 0 then throw (invalid_argument ZERO_VALUE)
  else
    temp <- sem_init value ;;
    e <- get_errno ;;
    sysexcept (negb (temp =? 0)) "sem_init" e.

(** Semaphore::post, part_008:172-184 *)
Definition post : M obj unit :=
  thread <- pthread_self ;;
  held <- locking_threads_at thread ;;
  if negb held then throw (logic_error NOT_HOLDING)
  else
    temp <- sem_post ;;
    e <- get_errno ;;
    sysexcept (negb (temp =? 0)) "sem_post" e ;;
    current_value_decr ;;
    locking_threads_assign thread false.
End part_008.

Module Semaphore_cpp.
(** Semaphore::Semaphore, src/Semaphore.cpp:29-37 *)
Definition Semaphore (value : Z) : M obj unit :=
  store (initialisers value) ;;
  if value =? 0 then throw (logic_error ZERO_VALUE)
  else
    temp <- sem_init value ;;
    e <- get_errno ;;
    sysexcept (negb (temp =? 0)) "sem_init" e.

(** Semaphore::post, src/Semaphore.cpp:145-157 *)
Definition post : M obj unit :=
  thread <- pthread_self ;;
  held <- locking_threads_at thread ;;
  if negb held then throw (logic_error NOT_HOLDING)
  else
    temp <- sem_post ;;
    e <- get_errno ;;
    sysexcept (negb (temp =? 0)) "sem_post" e ;;
    current_value_incr ;;
    locking_threads_assign thread false.
End Semaphore_cpp.

(** *** Vocabulary of the properties *)

(** holder_set[caller] of the specification: no entry counts as false. *)
Definition holds (s : obj) (caller : pthread_t) : bool :=
  default false (locking_threads s !! caller).

(** The fields after locking_threads[thread] has been read. *)
Definition touched (thread : pthread_t) (s : obj) : obj :=
  match locking_threads s !! thread with
  | Some _ => s
  | None => set_locking_threads (<[thread := false]> (locking_threads s)) s
  end.

(** The run throws [e], resp. returns [a], with [thread_queue] at [q]. *)
Definition throws_with_queue {A : Type} (r : outcome obj A) (e : exception)
  (q : Z) : Prop :=
  exists w', r = Throw e w' /\ thread_queue (this w') = q.

Definition returns_with_queue {A : Type} (r : outcome obj A) (a : A)
  (q : Z) : Prop :=
  exists w', r = Return a w' /\ thread_queue (this w') = q.

(** The errors an acquire method throws before it touches
    [thread_queue]. *)
Definition before_queue (e : exception) : Prop :=
  e = DoubleAcquire \/ e = invalid_argument INVALID_TIMESPEC \/
  exists c, e = system_error "gettimeofday" c.

(** Semaphore::get_current_value, get_thread_queue, get_max_value,
    src/header/Semaphore.hpp *)
Definition get_current_value : M obj Z := load current_value.
Definition get_thread_queue : M obj Z := load thread_queue.
Definition get_max_value : M obj Z := load max_value.

(** The threads whose entry in [locking_threads] is true, and how many they
    are. *)
Definition holding (s : obj) : gmap pthread_t bool :=
  filter (fun kv => kv.2 = true) (locking_threads s).
Definition holders (s : obj) : Z := Z.of_nat (size (holding s)).

(** The permits are accounted for: what the native semaphore still has and
    what the map says is held make up [max_value]. *)
Definition accounted (s : obj) : Prop :=
  0 <= sem s /\ sem s + holders s = max_value s.

(** How the outcomes of the two versions of post on the world [w] stand to
    each other. *)
Definition post_versions_relate (w : world obj)
  (cpp p8 : outcome obj unit) : Prop :=
  match cpp, p8 with
  | Return _ w1, Return _ w2 =>
      current_value (this w2) = uint (current_value (this w) - 1) /\
      w1 = World (self w2) (errno w2)
                 (set_current_value (uint (current_value (this w) + 1))
                                    (this w2))
                 (script w2) (log w2)
  | Throw e1 w1, Throw e2 w2 => e1 = e2 /\ w1 = w2
  | Suspended w1, Suspended w2 => w1 = w2
  | _, _ => False
  end.

(** The calls a thread can make on a semaphore. *)
Inductive method : Type :=
| Wait | TryWait | TimedWait (time : timespec)
| Post_part_008 | Post_Semaphore_cpp.

(** The fields a call leaves, however it ends. *)
Definition call (m : method) (w : world obj) : obj :=
  match m with
  | Wait => fields_after (wait w)
  | TryWait => fields_after (trywait w)
  | TimedWait time => fields_after (timedwait time w)
  | Post_part_008 => fields_after (part_008.post w)
  | Post_Semaphore_cpp => fields_after (Semaphore_cpp.post w)
  end.

(** The semaphores that come about: by a construction with [value] that
    succeeds, and from there by calls of any thread, under any answers. *)
Inductive reachable (value : Z) : obj -> Prop :=
| reach_new (w w' : world obj) :
    part_008.Semaphore value w = Return tt w' -> reachable value (this w')
| reach_call (s : obj) (m : method) (t : pthread_t) (e : Z)
    (sc : list (reply obj)) (lg : list (native * obj)) :
    reachable value s -> reachable value (call m (World t e s sc lg)).

End Semaphore.

(** ** Condition (src/Condition.cpp) *)

(** [while (cond) body], for a body that issues a native call each time
    round: the loop goes on as long as the script has answers, so it is run
    with one unit of fuel more than the script is long. *)
Fixpoint while {Obj : Type} (fuel : nat) (cond : M Obj bool) (body : M Obj unit)
  : M Obj unit :=
  match fuel with
  | O => suspend
  | S fuel' =>
      c <- cond ;;
      if c then body ;; while fuel' cond body else ret tt
  end.

Module Condition.

(** size_t arithmetic *)
Definition size_t (x : Z) : Z := x mod 2 ^ 64.

(** src/unnamed/part_003: the bookkeeping fields next to the native mutex
    and condition variable. *)
Record obj : Type := Obj {
  signal_created : bool;
  waiting_thread_count : Z;
  wakeup_by_brodcast : bool
}.

Definition set_signal_created (b : bool) (c : obj) : obj :=
  Obj b (waiting_thread_count c) (wakeup_by_brodcast c).
Definition set_waiting_thread_count (n : Z) (c : obj) : obj :=
  Obj (signal_created c) n (wakeup_by_brodcast c).
Definition set_wakeup_by_brodcast (b : bool) (c : obj) : obj :=
  Obj (signal_created c) (waiting_thread_count c) b.

(** Condition::Condition() *)
Definition Condition : obj := Obj false 0 false.

Definition waiting_thread_count_incr : M obj unit :=
  n <- load waiting_thread_count ;;
  store (set_waiting_thread_count (size_t (n + 1))).
Definition waiting_thread_count_decr : M obj unit :=
  n <- load waiting_thread_count ;;
  store (set_waiting_thread_count (size_t (n - 1))).

(** The embedded mutex is held between the lock and the unlock; while the
    caller waits for it, inside pthread_cond_wait, and once it is
    released, the fields are in the hands of the other threads. *)

(** Condition::wait(), Condition.cpp:88-112 *)
Definition wait : M obj bool := fun w =>
  (temp <- yielding_call PTHREAD_MUTEX_LOCK ;;
   sysexcept (negb (temp =? 0)) "pthread_mutex_lock" temp ;;
   waiting_thread_count_incr ;;
   while (S (length (script w)))
     (s <- load signal_created ;; ret (negb s))
     (temp <- yielding_call PTHREAD_COND_WAIT ;;
      sysexcept (negb (temp =? 0)) "pthread_cond_wait" temp) ;;
   waiting_thread_count_decr ;;
   b <- load wakeup_by_brodcast ;;
   n <- load waiting_thread_count ;;
   (if negb b || (n =? 0) then store (set_signal_created false) else ret tt) ;;
   temp <- yielding_call PTHREAD_MUTEX_UNLOCK ;;
   sysexcept (negb (temp =? 0)) "pthread_mutex_unlock" temp ;;
   ret true) w.

(** Condition::signal(), Condition.cpp:151-175 *)
Definition signal : M obj bool :=
  temp <- yielding_call PTHREAD_MUTEX_LOCK ;;
  sysexcept (negb (temp =? 0)) "pthread_mutex_lock" temp ;;
  n <- load waiting_thread_count ;;
  store (set_signal_created (negb (n =? 0))) ;;
  store (set_wakeup_by_brodcast false) ;;
  ret_val <- load signal_created ;;
  temp <- pthread_call PTHREAD_COND_SIGNAL ;;
  sysexcept (negb (temp =? 0)) "pthread_cond_signal" temp ;;
  temp <- yielding_call PTHREAD_MUTEX_UNLOCK ;;
  sysexcept (negb (temp =? 0)) "pthread_mutex_unlock" temp ;;
  ret ret_val.

(** Condition::broadcast(), Condition.cpp:177-201 *)
Definition broadcast : M obj bool :=
  temp <- yielding_call PTHREAD_MUTEX_LOCK ;;
  sysexcept (negb (temp =? 0)) "pthread_mutex_lock" temp ;;
  n <- load waiting_thread_count ;;
  store (set_signal_created (negb (n =? 0))) ;;
  store (set_wakeup_by_brodcast true) ;;
  ret_val <- load signal_created ;;
  temp <- pthread_call PTHREAD_COND_BROADCAST ;;
  sysexcept (negb (temp =? 0)) "pthread_cond_broadcast" temp ;;
  temp <- yielding_call PTHREAD_MUTEX_UNLOCK ;;
  sysexcept (negb (temp =? 0)) "pthread_mutex_unlock" temp ;;
  ret ret_val.

(** The loop of the timed wait, with the value [return_value] has when it is
    left: false by the break on ETIMEDOUT, true when the predicate is seen. *)
Fixpoint timedwait_loop (fuel : nat) : M obj bool :=
  match fuel with
  | O => suspend
  | S fuel' =>
      s <- load signal_created ;;
      if negb s
      then
        temp <- yielding_call PTHREAD_COND_TIMEDWAIT ;;
        if negb (temp =? 0) && (temp =? ETIMEDOUT) then ret false
        else
          (if negb (temp =? 0)
           then sysexcept true "pthread_cond_timedwait" temp else ret tt) ;;
          timedwait_loop fuel'
      else ret true
  end.

(** Condition::wait(const struct timespec&), Condition.cpp:114-149 *)
Definition wait_timespec (time : timespec) : M obj bool := fun w =>
  (timeout_time <- pthread_timeout time ;;
   temp <- yielding_call PTHREAD_MUTEX_LOCK ;;
   sysexcept (negb (temp =? 0)) "pthread_mutex_lock" temp ;;
   waiting_thread_count_incr ;;
   return_value <- timedwait_loop (S (length (script w))) ;;
   waiting_thread_count_decr ;;
   b <- load wakeup_by_brodcast ;;
   n <- load waiting_thread_count ;;
   (if negb b || (n =? 0) then store (set_signal_created false) else ret tt) ;;
   temp <- yielding_call PTHREAD_MUTEX_UNLOCK ;;
   sysexcept (negb (temp =? 0)) "pthread_mutex_unlock" temp ;;
   ret return_value) w.

(** *** Vocabulary of the properties *)

(** The waiter goes round the loop once for each answer of [waits]: before
    each the predicate is false, and after the last it is true. *)
Fixpoint sleeps_through (waits : list (reply obj)) (c : obj) : Prop :=
  match waits with
  | [] => signal_created c = true
  | r :: rs =>
      signal_created c = false /\ ret_code r = 0 /\
      sleeps_through rs (meanwhile r c)
  end.

(** The fields as the other threads leave them over these answers. *)
Definition after (waits : list (reply obj)) (c : obj) : obj :=
  fold_left (fun c r => meanwhile r c) waits c.

(** The waiter goes round the loop for each answer of [waits] and the
    predicate is false after the last as well. *)
Fixpoint sleeps_on (waits : list (reply obj)) (c : obj) : Prop :=
  signal_created c = false /\
  match waits with
  | [] => True
  | r :: rs => ret_code r = 0 /\ sleeps_on rs (meanwhile r c)
  end.

(** What a waiter does to the fields [c] it leaves the loop with: one off the
    count, and the flag cleared unless a broadcast has waiters left. *)
Definition leave (c : obj) : obj :=
  let n := size_t (waiting_thread_count c - 1) in
  Obj (if negb (wakeup_by_brodcast c) || (n =? 0) then false
       else signal_created c)
      n (wakeup_by_brodcast c).

(** The fields with which a caller arrives in the loop. *)
Definition enter (lockr : reply obj) (c : obj) : obj :=
  set_waiting_thread_count
    (size_t (waiting_thread_count (meanwhile lockr c) + 1)) (meanwhile lockr c).

End Condition.

(** ** RW_Lock (src/unnamed/part_006, src/RW_Lock.hpp) *)

Module RW_Lock.

Definition size_t (x : Z) : Z := x mod 2 ^ 64.

(** RW_Lock.hpp:33-40 *)
Record obj : Type := Obj { read_locked : Z; write_locked : bool }.

Definition set_read_locked (n : Z) (l : obj) : obj := Obj n (write_locked l).
Definition set_write_locked (b : bool) (l : obj) : obj := Obj (read_locked l) b.

Definition NEVER_LOCKED : string :=
  ": Call of RW_Lock::unlock(), but RW_Lock was never locked.".
Definition NotLocked : exception := logic_error NEVER_LOCKED.

(** RW_Lock::is_locked, RW_Lock.hpp:99-102 *)
Definition is_locked : M obj bool :=
  n <- load read_locked ;;
  b <- load write_locked ;;
  ret (negb (n =? 0) || b).

(** RW_Lock::unlock, part_006:175-193 *)
Definition unlock : M obj unit :=
  l <- is_locked ;;
  if negb l then throw (logic_error NEVER_LOCKED)
  else
    write_locked_temp <- load write_locked ;;
    wl <- load write_locked ;;
    (if wl then store (set_write_locked false)
     else n <- load read_locked ;; store (set_read_locked (size_t (n - 1)))) ;;
    temp <- pthread_call PTHREAD_RWLOCK_UNLOCK ;;
    if negb (temp =? 0)
    then
      (if write_locked_temp then store (set_write_locked true)
       else n <- load read_locked ;; store (set_read_locked (size_t (n + 1)))) ;;
      sysexcept true "pthread_rwlock_unlock" temp
    else ret tt.

(** RW_Lock::RW_Lock() *)
Definition RW_Lock : obj := Obj 0 false.

(** The native calls of the locking methods. *)
Definition pthread_rwlock_rdlock : M obj Z := native_code.
Definition pthread_rwlock_wrlock : M obj Z := native_code.
Definition pthread_rwlock_tryrdlock : M obj Z := native_code.
Definition pthread_rwlock_trywrlock : M obj Z := native_code.
Definition pthread_rwlock_timedrdlock (abs_timeout : timespec) : M obj Z :=
  native_code.
Definition pthread_rwlock_timedwrlock (abs_timeout : timespec) : M obj Z :=
  native_code.

Definition read_locked_incr : M obj unit :=
  n <- load read_locked ;; store (set_read_locked (size_t (n + 1))).

(** RW_Lock::rd_lock, part_006:101-107 *)
Definition rd_lock : M obj unit :=
  temp <- pthread_rwlock_rdlock ;;
  sysexcept (negb (temp =? 0)) "pthread_rwlock_rdlock" temp ;;
  read_locked_incr.

(** RW_Lock::wr_lock, part_006:109-115 *)
Definition wr_lock : M obj unit :=
  temp <- pthread_rwlock_wrlock ;;
  sysexcept (negb (temp =? 0)) "pthread_rwlock_wrlock" temp ;;
  store (set_write_locked true).

(** RW_Lock::rd_trylock, part_006:117-128 *)
Definition rd_trylock : M obj bool :=
  temp <- pthread_rwlock_tryrdlock ;;
  if negb (temp =? 0) && (temp =? EBUSY) then ret false
  else
    (if negb (temp =? 0) then sysexcept true "pthread_rwlock_tryrdlock" temp
     else ret tt) ;;
    read_locked_incr ;;
    ret true.

(** RW_Lock::wr_trylock, part_006:130-141 *)
Definition wr_trylock : M obj bool :=
  temp <- pthread_rwlock_trywrlock ;;
  if negb (temp =? 0) && (temp =? EBUSY) then ret false
  else
    (if negb (temp =? 0) then sysexcept true "pthread_rwlock_trywrlock" temp
     else ret tt) ;;
    store (set_write_locked true) ;;
    ret true.

(** RW_Lock::rd_timedlock, part_006:143-157 *)
Definition rd_timedlock (time : timespec) : M obj bool :=
  timeout_time <- pthread_timeout time ;;
  temp <- pthread_rwlock_timedrdlock timeout_time ;;
  if negb (temp =? 0) && (temp =? ETIMEDOUT) then ret false
  else
    (if negb (temp =? 0) then sysexcept true "pthread_rwlock_timedrdlock" temp
     else ret tt) ;;
    read_locked_incr ;;
    ret true.

(** RW_Lock::wr_timedlock, part_006:159-173 *)
Definition wr_timedlock (time : timespec) : M obj bool :=
  timeout_time <- pthread_timeout time ;;
  temp <- pthread_rwlock_timedwrlock timeout_time ;;
  if negb (temp =? 0) && (temp =? ETIMEDOUT) then ret false
  else
    (if negb (temp =? 0) then sysexcept true "pthread_rwlock_timedwrlock" temp
     else ret tt) ;;
    store (set_write_locked true) ;;
    ret true.

(** RW_Lock::is_read_locked, is_write_locked, RW_Lock.hpp:104-112 *)
Definition is_read_locked : M obj Z := load read_locked.
Definition is_write_locked : M obj bool := load write_locked.


Definition reader_more (l : obj) : obj :=
  set_read_locked (size_t (read_locked l + 1)) l.

End RW_Lock.

(** ** Thread (src/Thread.cpp) *)

Module Thread.

(** src/unnamed/part_004:38-42 *)
Inductive detachstate_t : Type := JOINABLE | DETACHED.

(** src/unnamed/part_004:49-67, without the entry point, its arguments
    and the attribute object, which the join methods do not use. *)
Record obj : Type := Obj {
  thread_id : pthread_t;
  running : bool;
  detachstate : detachstate_t
}.

Definition set_running (b : bool) (t : obj) : obj :=
  Obj (thread_id t) b (detachstate t).

Definition is_detached (d : detachstate_t) : bool :=
  match d with DETACHED => true | JOINABLE => false end.

Definition JOIN_DETACHED : string :=
  ": Call of Thread::join(), but thread is detached.".
Definition JOIN_NOT_STARTED : string :=
  ": Call of Thread::join(), nut thread is not started or was killed".

(** The error kinds of the specification. *)
Definition Detached : exception := logic_error JOIN_DETACHED.
Definition NotRunning : exception := logic_error JOIN_NOT_STARTED.

(** A native join call.  [return_value] says whether the pointer passed on
    is non-null; the exit value is what a successful call stores through
    it. *)
Definition join_call (c : native) (return_value : bool) : M obj (Z * option Z) :=
  r <- issue c ;;
  ret (ret_code r,
       if return_value && (ret_code r =? 0) then Some (exit_value r) else None).

(** Thread::join, Thread.cpp:185-198 *)
Definition join (return_value : bool) : M obj (option Z) :=
  d <- load detachstate ;;
  if is_detached d then throw (logic_error JOIN_DETACHED)
  else
    r <- load running ;;
    if negb r then throw (logic_error JOIN_NOT_STARTED)
    else
      j <- join_call PTHREAD_JOIN return_value ;;
      sysexcept (negb (fst j =? 0)) "pthread_join" (fst j) ;;
      store (set_running false) ;;
      ret (snd j).

(** Thread::try_join, Thread.cpp:200-218 *)
Definition try_join (return_value : bool) : M obj (bool * option Z) :=
  d <- load detachstate ;;
  if is_detached d then throw (logic_error JOIN_DETACHED)
  else
    r <- load running ;;
    if negb r then throw (logic_error JOIN_NOT_STARTED)
    else
      j <- join_call PTHREAD_TRYJOIN_NP return_value ;;
      let temp := fst j in
      if negb (temp =? 0) && (temp =? EBUSY) then ret (false, snd j)
      else
        (if negb (temp =? 0) then sysexcept true "pthread_tryjoin_np" temp
         else ret tt) ;;
        store (set_running false) ;;
        ret (true, snd j).

(** Thread::timed_join, Thread.cpp:220-258 *)
Definition timed_join (time : timespec) (return_value : bool)
  : M obj (bool * option Z) :=
  d <- load detachstate ;;
  if is_detached d then throw (logic_error JOIN_DETACHED)
  else
    r <- load running ;;
    if negb r then throw (logic_error JOIN_NOT_STARTED)
    else if (tv_sec time <? 0) || (tv_nsec time <? 0)
            || (NSEC_PER_SEC <=? tv_nsec time)
    then throw (invalid_argument "invalid timespec")
    else
      now <- gettimeofday ;;
      e <- get_errno ;;
      sysexcept (negb (fst now =? 0)) "gettimeofday" e ;;
      let current_time := snd now in
      let sec := long (tv_sec time + tv_sec' current_time) in
      let nsec :=
        long (tv_nsec time + long (tv_usec current_time * NSEC_PER_USEC)) in
      let timeout_time :=
        if NSEC_PER_SEC <=? nsec
        then Timespec (long (sec + 1)) (long (nsec - NSEC_PER_SEC))
        else Timespec sec nsec in
      j <- join_call PTHREAD_TIMEDJOIN_NP return_value ;;
      let temp := fst j in
      if negb (temp =? 0) && (temp =? ETIMEDOUT) then ret (false, snd j)
      else
        (if negb (temp =? 0) then sysexcept true "pthread_tryjoin_np" temp
         else ret tt) ;;
        store (set_running false) ;;
        ret (true, snd j).

Definition set_detachstate (d : detachstate_t) (t : obj) : obj :=
  Obj (thread_id t) (running t) d.
Definition set_thread_id (id : pthread_t) (t : obj) : obj :=
  Obj id (running t) (detachstate t).

Definition ALREADY_STARTED : string :=
  ": Call of Thread::start(), but thread was started already.".
Definition DETACH_DETACHED : string :=
  ": Call of Thread::detach(), but thread is not joinable or already detached.".
Definition DETACH_STOPPED : string :=
  ": Call of Thread::detach(), but thread is not running.".
Definition CANCEL_STOPPED : string :=
  ": Call of Thread::kill(), but thread is not running.".
Definition SIGNAL_STOPPED : string :=
  ": Call of Thread::signal(), but thread is not running.".

(** The native calls of the other methods. *)
Definition pthread_attr_init : M obj Z := native_code.
Definition pthread_attr_setdetachstate (d : detachstate_t) : M obj Z :=
  native_code.
Definition pthread_detach (id : pthread_t) : M obj Z := native_code.
Definition pthread_cancel (id : pthread_t) : M obj Z := native_code.
Definition pthread_kill (id : pthread_t) (signum : Z) : M obj Z := native_code.

(** pthread_create(&thread_id, ...) writes through its first argument.
    When it succeeds that is the id of the new thread.  When it fails POSIX
    leaves the contents undefined, and glibc has stored an id before it
    fails: what the call leaves in [thread_id] is taken from the answer's
    [exit_value] place in both cases, and after a failure [errno] is what
    the answer says too. *)
Definition pthread_create : M obj Z :=
  fun w =>
    match script w with
    | [] => Suspended w
    | r :: rest =>
        Return (ret_code r)
               (World (self w)
                      (if ret_code r =? 0 then errno w else err r)
                      (set_thread_id (exit_value r) (this w))
                      rest (log w))
    end.

(** Thread::Thread(thread_function_t), Thread.cpp:62-68 *)
Definition Thread : M obj unit :=
  store (fun _ => Obj 0 false JOINABLE) ;;
  temp <- pthread_attr_init ;;
  sysexcept (negb (temp =? 0)) "pthread_attr_init" temp.

(** Thread::Thread(thread_function_t, detachstate_t), Thread.cpp:70-81 *)
Definition Thread_detachstate (d : detachstate_t) : M obj unit :=
  store (fun _ => Obj 0 false d) ;;
  temp <- pthread_attr_init ;;
  sysexcept (negb (temp =? 0)) "pthread_attr_init" temp ;;
  temp <- pthread_attr_setdetachstate d ;;
  sysexcept (negb (temp =? 0)) "pthread_attr_setdetachstate" temp.

(** Thread::start, Thread.cpp:154-165 *)
Definition start : M obj unit :=
  r <- load running ;;
  if r then throw (logic_error ALREADY_STARTED)
  else
    temp <- pthread_create ;;
    sysexcept (negb (temp =? 0)) "pthread_create" temp ;;
    store (set_running true).

(** Thread::detach, Thread.cpp:167-183 *)
Definition detach : M obj unit :=
  d <- load detachstate ;;
  if is_detached d then throw (logic_error DETACH_DETACHED)
  else
    r <- load running ;;
    if negb r then throw (logic_error DETACH_STOPPED)
    else
      id <- load thread_id ;;
      temp <- pthread_detach id ;;
      sysexcept (negb (temp =? 0)) "pthread_detach" temp ;;
      store (set_detachstate DETACHED).

(** Thread::cancel, Thread.cpp:260-270 *)
Definition cancel : M obj unit :=
  r <- load running ;;
  if negb r then throw (logic_error CANCEL_STOPPED)
  else
    id <- load thread_id ;;
    temp <- pthread_cancel id ;;
    sysexcept (negb (temp =? 0)) "pthread_cancel" temp ;;
    store (set_running false).

(** Thread::send_signal, Thread.cpp:272-280 *)
Definition send_signal (signum : Z) : M obj unit :=
  r <- load running ;;
  if negb r then throw (runtime_error SIGNAL_STOPPED)
  else
    id <- load thread_id ;;
    temp <- pthread_kill id signum ;;
    sysexcept (negb (temp =? 0)) "pthread_kill" temp.

(** Thread::kill, src/unnamed/part_004:370-373 *)
Definition kill (signum : Z) : M obj unit := send_signal signum.

(** Thread::get_detachstate, src/unnamed/part_004:405-408 *)
Definition get_detachstate : M obj detachstate_t := load detachstate.

End Thread.

(** * Properties *)

(** Unfolding of the monad's operations, for runs on explicit worlds. *)
Ltac run :=
  cbv [bind ret throw suspend load store pthread_self get_errno set_errno
       issue pthread_call yielding_call sysexcept gettimeofday];
  cbn [self errno this script log tl fst snd].

Lemma eqb_code_false (c : Z) : c <> 0 -> (c =? 0) = false.
Proof. intros H. apply Z.eqb_neq. exact H. Qed.

Lemma valid_check (time : timespec) :
  valid time ->
  (tv_sec time <? 0) || (tv_nsec time <? 0) || (NSEC_PER_SEC <=? tv_nsec time)
  = false.
Proof.
  intros [H1 [H2 H3]].
  destruct (tv_sec time <? 0) eqn:E1; [apply Z.ltb_lt in E1; lia|].
  destruct (tv_nsec time <? 0) eqn:E2; [apply Z.ltb_lt in E2; lia|].
  destruct (NSEC_PER_SEC <=? tv_nsec time) eqn:E3; [apply Z.leb_le in E3; lia|].
  reflexivity.
Qed.

Module MutexSpec.
Import Mutex.

Lemma restore_locked (m : obj) :
  locked m = true -> set_locked true (set_locked false m) = m.
Proof. destruct m as [t l]. cbn. intros ->. reflexivity. Qed.

(** C5. Mutex::unlock: on an unlocked mutex it throws NotLocked; on a mutex
    locked by another thread it throws OwnerMismatch; called by the owner it
    has cleared [locked] (so there is no owner any more) when the native
    release is issued, and when that release fails it sets [locked] again
    and throws the system error.  Whenever it throws, the fields are those
    of before the call. *)
Theorem mutex_unlock_spec (w : world obj) :
  let m := this w in
  (locked m = false -> unlock w = Throw NotLocked w) /\
  (locked m = true -> self w <> lock_thread m ->
     unlock w = Throw OwnerMismatch w) /\
  (locked m = true -> self w = lock_thread m ->
     forall r rest, script w = r :: rest ->
       let cleared := set_locked false m in
       let at_release := log w ++ [(PTHREAD_MUTEX_UNLOCK, cleared)] in
       owner cleared = None /\
       (ret_code r = 0 ->
          unlock w =
          Return tt (World (self w) (errno w) cleared rest at_release)) /\
       (ret_code r <> 0 ->
          unlock w =
          Throw (system_error "pthread_mutex_unlock" (ret_code r))
                (World (self w) (errno w) m rest at_release))).
Proof.
  destruct w as [me e m sc lg]. cbn [this self errno script log].
  split; [|split].
  - intros Hl. unfold unlock. run. rewrite Hl. reflexivity.
  - intros Hl Hne. unfold unlock. run. rewrite Hl. cbn.
    apply Z.eqb_neq in Hne. rewrite Hne. reflexivity.
  - intros Hl He r rest ->. subst me. split; [reflexivity|]. split.
    + intros Hr. unfold unlock. run. rewrite Hl. cbn.
      rewrite Z.eqb_refl. cbn. rewrite Hr. reflexivity.
    + intros Hr. unfold unlock. run. rewrite Hl. cbn.
      rewrite Z.eqb_refl. cbn. rewrite (eqb_code_false _ Hr). cbn.
      rewrite (restore_locked m Hl). reflexivity.
Qed.

(** The owner's unlock, failing natively with EINVAL. *)
Lemma mutex_unlock_spec_witness :
  unlock (World 7 0 (Obj 7 true) [answers EINVAL] []) =
  Throw (system_error "pthread_mutex_unlock" EINVAL)
        (World 7 0 (Obj 7 true) [] [(PTHREAD_MUTEX_UNLOCK, Obj 7 false)]).
Proof.
  pose proof (mutex_unlock_spec (World 7 0 (Obj 7 true) [answers EINVAL] [])) as H.
  cbn [this self errno script log] in H.
  destruct H as [_ [_ H]].
  destruct (H eq_refl eq_refl (answers EINVAL) [] eq_refl) as [_ [_ H']].
  apply H'. cbn. discriminate.
Defined.

(** The double-lock check of lock, trylock and the timedlock of part_007:
    a caller that owns the mutex gets DoubleLock and nothing changes. *)
Lemma double_lock_check (time : timespec) (w : world obj) :
  locked (this w) = true -> lock_thread (this w) = self w ->
  lock w = Throw DoubleLock w /\
  trylock w = Throw DoubleLock w /\
  part_007.timedlock time w = Throw DoubleLock w.
Proof.
  destruct w as [me e m sc lg]. cbn [this self].
  intros Hl Ht. unfold lock, trylock, part_007.timedlock. run.
  rewrite Hl, Ht, Z.eqb_refl. cbn. repeat split.
Qed.

(** timedlock of part_007 by a caller that is not the owner: false when the
    native call reports the deadline, true with the caller recorded as
    owner when it succeeds. *)
Lemma part_007_timedlock_free (time : timespec) (w : world obj)
  (now r : reply obj) (rest : list (reply obj)) :
  owner (this w) <> Some (self w) -> valid time ->
  script w = now :: r :: rest -> ret_code now = 0 ->
  let at_calls :=
    log w ++ [(GETTIMEOFDAY, this w); (PTHREAD_MUTEX_TIMEDLOCK, this w)] in
  (ret_code r = ETIMEDOUT ->
     part_007.timedlock time w =
     Return false (World (self w) (errno w) (this w) rest at_calls)) /\
  (ret_code r = 0 ->
     part_007.timedlock time w =
     Return true (World (self w) (errno w) (Obj (self w) true) rest at_calls)).
Proof.
  destruct w as [me e m sc lg]. cbn [this self errno script log].
  intros Ho Hv -> Hn.
  assert (Hc : locked m && (lock_thread m =? me) = false).
  { destruct m as [t l]. unfold owner in Ho. cbn in *.
    destruct l; [|reflexivity]. cbn.
    apply Z.eqb_neq. intros ->. apply Ho. reflexivity. }
  split; intros Hr; unfold part_007.timedlock, pthread_timeout;
    run; rewrite Hc, (valid_check _ Hv); run; rewrite Hn; cbn;
    destruct (NSEC_PER_SEC <=? _); cbn; rewrite Hr; cbn;
    rewrite <- app_assoc; reflexivity.
Qed.

(** C3. The timedlock that follows src/Condition.cpp, called by the thread
    that owns the mutex (the native call running into the deadline):
    it returns false, where lock, trylock and the timedlock of part_007
    throw DoubleLock. *)
Theorem timedlock_without_double_lock_check :
  let w := World 7 0 (Obj 7 true) [succeeds; answers ETIMEDOUT] [] in
  owner (this w) = Some (self w) /\
  lock w = Throw DoubleLock w /\
  trylock w = Throw DoubleLock w /\
  part_007.timedlock (Timespec 1 0) w = Throw DoubleLock w /\
  Condition_cpp.timedlock (Timespec 1 0) w =
  Return false
         (World 7 0 (Obj 7 true) []
                [(GETTIMEOFDAY, Obj 7 true);
                 (PTHREAD_MUTEX_TIMEDLOCK, Obj 7 true)]).
Proof. cbv zeta. repeat split. Qed.
End MutexSpec.

Module SemaphoreSpec.
Import Semaphore.

Lemma locking_threads_at_run (thread : pthread_t) (w : world obj) :
  locking_threads_at thread w =
  Return (holds (this w) thread)
         (World (self w) (errno w) (touched thread (this w)) (script w) (log w)).
Proof.
  destruct w as [me e s sc lg]. unfold locking_threads_at, holds, touched. run.
  destruct (locking_threads s !! thread) as [b|]; reflexivity.
Qed.

Lemma holds_touched (thread caller : pthread_t) (s : obj) :
  holds (touched thread s) caller = holds s caller.
Proof.
  unfold holds, touched.
  destruct (locking_threads s !! thread) as [b|] eqn:E; [reflexivity|].
  cbn. destruct (decide (thread = caller)) as [->|Hne].
  - rewrite lookup_insert_eq, E. reflexivity.
  - rewrite lookup_insert_ne by exact Hne. reflexivity.
Qed.

Lemma touched_fields (thread : pthread_t) (s : obj) :
  sem (touched thread s) = sem s /\
  max_value (touched thread s) = max_value s /\
  current_value (touched thread s) = current_value s /\
  thread_queue (touched thread s) = thread_queue s.
Proof.
  unfold touched. destruct (locking_threads s !! thread); cbn; auto.
Qed.

Lemma touched_held (thread : pthread_t) (s : obj) :
  holds s thread = true -> touched thread s = s.
Proof.
  unfold holds, touched.
  destruct (locking_threads s !! thread); [reflexivity | discriminate].
Qed.

(** Every method starts with pthread_self() and the read of
    locking_threads[thread]. *)
Ltac enter :=
  unfold bind at 1; unfold pthread_self at 1; unfold bind at 1;
  rewrite locking_threads_at_run; cbn [self errno this script log].

Ltac body :=
  unfold thread_queue_incr, thread_queue_decr, current_value_incr,
    current_value_decr, locking_threads_assign, sem_wait, sem_timedwait,
    sem_post, sem_init, pthread_timeout;
  run.

(** post of part_008 by a holder, the native release succeeding: the count
    of the native semaphore goes up, [current_value] goes down, the
    caller's entry is false. *)
Lemma part_008_post_held (w : world obj) (r : reply obj) (rest : list (reply obj)) :
  holds (this w) (self w) = true ->
  script w = r :: rest -> ret_code r = 0 -> sem (this w) < SEM_VALUE_MAX ->
  part_008.post w =
  Return tt
    (World (self w) (errno w)
       (Obj (sem (this w) + 1)
            (<[self w := false]> (locking_threads (this w)))
            (max_value (this w))
            (uint (current_value (this w) - 1))
            (thread_queue (this w)))
       rest (log w ++ [(SEM_POST, this w)])).
Proof.
  destruct w as [me e s sc lg]. cbn [self errno this script log].
  intros Hh -> Hr Hs. unfold part_008.post. enter.
  rewrite Hh, (touched_held _ _ Hh). cbn [negb]. body.
  rewrite Hr. cbn.
  destruct (SEM_VALUE_MAX <=? sem s) eqn:E; [apply Z.leb_le in E; lia|].
  reflexivity.
Qed.

(** The same call on the post of src/Semaphore.cpp: [current_value] goes
    up. *)
Lemma Semaphore_cpp_post_held (w : world obj) (r : reply obj) (rest : list (reply obj)) :
  holds (this w) (self w) = true ->
  script w = r :: rest -> ret_code r = 0 -> sem (this w) < SEM_VALUE_MAX ->
  Semaphore_cpp.post w =
  Return tt
    (World (self w) (errno w)
       (Obj (sem (this w) + 1)
            (<[self w := false]> (locking_threads (this w)))
            (max_value (this w))
            (uint (current_value (this w) + 1))
            (thread_queue (this w)))
       rest (log w ++ [(SEM_POST, this w)])).
Proof.
  destruct w as [me e s sc lg]. cbn [self errno this script log].
  intros Hh -> Hr Hs. unfold Semaphore_cpp.post. enter.
  rewrite Hh, (touched_held _ _ Hh). cbn [negb]. body.
  rewrite Hr. cbn.
  destruct (SEM_VALUE_MAX <=? sem s) eqn:E; [apply Z.leb_le in E; lia|].
  reflexivity.
Qed.

(** post by a caller that does not hold the semaphore throws NotHeld in
    both sources, without a native call; the read of the map leaves an
    entry [false] for a caller that had none, which no lookup tells from
    the state before. *)
Lemma post_not_held (w : world obj) :
  holds (this w) (self w) = false ->
  let w' := World (self w) (errno w) (touched (self w) (this w))
                  (script w) (log w) in
  part_008.post w = Throw NotHeld w' /\
  Semaphore_cpp.post w = Throw NotHeld w' /\
  (forall caller, holds (this w') caller = holds (this w) caller) /\
  sem (this w') = sem (this w) /\
  current_value (this w') = current_value (this w) /\
  thread_queue (this w') = thread_queue (this w).
Proof.
  destruct w as [me e s sc lg]. cbn [self errno this script log].
  intros Hh.
  destruct (touched_fields me s) as (Hs & _ & Hc & Hq).
  repeat split; auto.
  - unfold part_008.post. enter. rewrite Hh. reflexivity.
  - unfold Semaphore_cpp.post. enter. rewrite Hh. reflexivity.
  - intros caller. apply holds_touched.
Qed.

(** C1. The post of src/Semaphore.cpp run by the holder of one of three
    permits: the native release is done and the caller's entry is cleared,
    but [current_value] goes from 1 to 2, where the post of part_008 takes
    it to 0. *)
Theorem post_increments_current_value :
  let w := World 7 0 (Obj 2 {[7 := true]} 3 1 0) [succeeds] [] in
  holds (this w) 7 = true /\
  Semaphore_cpp.post w =
    Return tt (World 7 0 (Obj 3 {[7 := false]} 3 2 0) []
                     [(SEM_POST, Obj 2 {[7 := true]} 3 1 0)]) /\
  part_008.post w =
    Return tt (World 7 0 (Obj 3 {[7 := false]} 3 0 0) []
                     [(SEM_POST, Obj 2 {[7 := true]} 3 1 0)]).
Proof. cbv zeta. repeat split; vm_compute; reflexivity. Qed.

(** trywait on a semaphore whose count is zero, by a caller that does not
    hold it: the native call issued is sem_wait, and the caller is
    suspended in it with [thread_queue] raised. *)
Lemma trywait_exhausted (w : world obj) (r : reply obj) (rest : list (reply obj)) :
  holds (this w) (self w) = false ->
  script w = r :: rest -> ret_code r = 0 -> sem (this w) <= 0 ->
  let queued :=
    set_thread_queue (uint (thread_queue (this w) + 1))
                     (touched (self w) (this w)) in
  trywait w =
  Suspended (World (self w) (errno w) queued rest
                   (log w ++ [(SEM_WAIT, queued)])).
Proof.
  destruct w as [me e s sc lg]. cbn [self errno this script log].
  intros Hh -> Hr Hs. unfold trywait. enter. rewrite Hh. body.
  rewrite Hr. cbn.
  destruct (touched_fields me s) as (Hsem & _ & _ & Hq).
  rewrite Hsem, Hq.
  destruct (0 <? sem s) eqn:E; [apply Z.ltb_lt in E; lia|].
  reflexivity.
Qed.

(** C2. trywait on an exhausted semaphore (thread 8 holds the only permit,
    the native count is 0) called by thread 7: the call does not return
    false; the caller is suspended inside sem_wait, a call that may block,
    with [thread_queue] at 1. *)
Theorem trywait_blocks_when_exhausted :
  let w := World 7 0 (Obj 0 {[8 := true]} 1 1 0) [succeeds] [] in
  let queued := Obj 0 (<[7 := false]> {[8 := true]}) 1 1 1 in
  holds (this w) 7 = false /\
  trywait w = Suspended (World 7 0 queued [] [(SEM_WAIT, queued)]) /\
  may_block SEM_WAIT = true.
Proof. cbv zeta. repeat split; vm_compute; reflexivity. Qed.

(** C4, as stated, fails: constructing with a value above SEM_VALUE_MAX,
    which is greater than zero, does not succeed; sem_init refuses it and
    the constructor throws the system error. *)
Lemma Semaphore_positive_value_throws :
  0 < 4294967295 < 2 ^ 32 /\
  part_008.Semaphore 4294967295 (World 7 0 (Obj 0 ∅ 0 0 0) [succeeds] []) =
  Throw (system_error "sem_init" EINVAL)
        (World 7 EINVAL (Obj 0 ∅ 4294967295 0 0) []
               [(SEM_INIT, Obj 0 ∅ 4294967295 0 0)]).
Proof. split; [lia | vm_compute; reflexivity]. Qed.

(** C4, amended.  The constructor with value 0 throws before any native
    call, so the native semaphore is as it was, and what the constructor of
    part_008 throws is InvalidArgument, which is no logic_error; with
    another value the constructor succeeds when sem_init does (the answer is
    a success and the value is at most SEM_VALUE_MAX), and throws the system
    error of sem_init otherwise, the native semaphore again untouched. *)
Theorem Semaphore_construction (value : Z) (w : world obj) :
  let init := initialisers value (this w) in
  (value = 0 ->
     let thrown := World (self w) (errno w) init (script w) (log w) in
     part_008.Semaphore value w = Throw InvalidArgument thrown /\
     (forall what, InvalidArgument <> logic_error what) /\
     (exists e, Semaphore_cpp.Semaphore value w = Throw e thrown) /\
     sem init = sem (this w)) /\
  (value <> 0 ->
     Semaphore_cpp.Semaphore value w = part_008.Semaphore value w /\
     forall r rest, script w = r :: rest ->
       let at_init := log w ++ [(SEM_INIT, init)] in
       (ret_code r = 0 -> value <= SEM_VALUE_MAX ->
          part_008.Semaphore value w =
          Return tt (World (self w) (errno w) (set_sem value init) rest at_init)) /\
       (ret_code r <> 0 \/ SEM_VALUE_MAX < value ->
          exists code e',
            part_008.Semaphore value w =
            Throw (system_error "sem_init" code)
                  (World (self w) e' init rest at_init) /\
            sem init = sem (this w))).
Proof.
  destruct w as [me e s sc lg]. cbn [self errno this script log].
  split.
  - intros ->. cbv zeta. repeat split.
    + intros what. discriminate.
    + eexists. reflexivity.
  - intros Hv. split.
    { unfold Semaphore_cpp.Semaphore, part_008.Semaphore. run.
      rewrite (eqb_code_false _ Hv). reflexivity. }
    intros r rest ->.
    unfold part_008.Semaphore. body. rewrite (eqb_code_false _ Hv).
    cbv beta iota. cbn [script log this self errno tail].
    split.
    + intros Hr Hmax. rewrite Hr. cbn.
      destruct (SEM_VALUE_MAX <? value) eqn:E; [apply Z.ltb_lt in E; lia|].
      reflexivity.
    + intros Hfail.
      destruct (ret_code r =? 0) eqn:Hr; cbn.
      * destruct Hfail as [Hne | Hgt];
          [apply Z.eqb_eq in Hr; contradiction|].
        apply Z.ltb_lt in Hgt. rewrite Hgt. cbn.
        exists EINVAL, EINVAL. split; reflexivity.
      * exists (err r), (err r). split; reflexivity.
Qed.

(** Semaphore(3) over fresh storage, sem_init succeeding. *)
Lemma Semaphore_construction_witness :
  part_008.Semaphore 3 (World 7 0 (Obj 0 ∅ 0 5 9) [succeeds] []) =
  Return tt (World 7 0 (Obj 3 ∅ 3 5 0) [] [(SEM_INIT, Obj 0 ∅ 3 5 0)]).
Proof.
  pose proof (Semaphore_construction 3
                (World 7 0 (Obj 0 ∅ 0 5 9) [succeeds] [])) as H.
  cbn [this self errno script log] in H.
  destruct H as [_ H].
  assert (Hv : 3 <> 0) by discriminate.
  destruct (H Hv) as [_ Hp].
  destruct (Hp succeeds [] eq_refl) as [H' _].
  apply H'; [reflexivity | unfold SEM_VALUE_MAX; lia].
Defined.

Lemma uint_incr_decr (q : Z) : uint (uint (q + 1) - 1) = uint q.
Proof.
  unfold uint. rewrite Zminus_mod_idemp_l. f_equal. lia.
Qed.

Section Acquire.
Variable w : world obj.
Let q : Z := thread_queue (this w).

Lemma wait_native_failure (r : reply obj) (rest : list (reply obj)) :
  holds (this w) (self w) = false ->
  script w = r :: rest -> ret_code r <> 0 ->
  throws_with_queue (wait w) (system_error "sem_wait" (err r)) (uint (q + 1)).
Proof.
  subst q. destruct w as [me e s sc lg]. cbn [self errno this script log].
  intros Hh -> Hr. unfold throws_with_queue, wait. enter. rewrite Hh. body.
  rewrite (eqb_code_false _ Hr). cbn.
  destruct (touched_fields me s) as (_ & _ & _ & Hq). rewrite Hq.
  eexists. split; reflexivity.
Qed.

Lemma trywait_native_failure (r : reply obj) (rest : list (reply obj)) :
  holds (this w) (self w) = false ->
  script w = r :: rest -> ret_code r <> 0 -> err r <> EAGAIN ->
  throws_with_queue (trywait w) (system_error "sem_wait" (err r))
                    (uint (q + 1)).
Proof.
  subst q. destruct w as [me e s sc lg]. cbn [self errno this script log].
  intros Hh -> Hr He. unfold throws_with_queue, trywait. enter.
  rewrite Hh. body.
  rewrite (eqb_code_false _ Hr). cbn.
  apply Z.eqb_neq in He. rewrite He. cbn.
  destruct (touched_fields me s) as (_ & _ & _ & Hq). rewrite Hq.
  eexists. split; reflexivity.
Qed.

Lemma timedwait_native_failure (time : timespec) (now r : reply obj)
  (rest : list (reply obj)) :
  holds (this w) (self w) = false -> valid time ->
  script w = now :: r :: rest -> ret_code now = 0 ->
  ret_code r <> 0 -> err r <> ETIMEDOUT ->
  throws_with_queue (timedwait time w) (system_error "sem_wait" (err r))
                    (uint (q + 1)).
Proof.
  subst q. destruct w as [me e s sc lg]. cbn [self errno this script log].
  intros Hh Hv -> Hn Hr He. unfold throws_with_queue, timedwait. enter.
  rewrite Hh. body. rewrite (valid_check _ Hv). run.
  rewrite Hn. cbn.
  destruct (NSEC_PER_SEC <=? _); cbn;
    rewrite (eqb_code_false _ Hr); cbn;
    apply Z.eqb_neq in He; rewrite He; cbn;
    destruct (touched_fields me s) as (_ & _ & _ & Hq); rewrite Hq;
    eexists; split; reflexivity.
Qed.

(** Double acquisition is found before the queue depth is touched. *)
Lemma acquire_double (time : timespec) :
  holds (this w) (self w) = true ->
  throws_with_queue (wait w) DoubleAcquire q /\
  throws_with_queue (trywait w) DoubleAcquire q /\
  throws_with_queue (timedwait time w) DoubleAcquire q.
Proof.
  subst q. destruct w as [me e s sc lg]. cbn [self errno this script log].
  intros Hh. unfold throws_with_queue, wait, trywait, timedwait.
  repeat split; enter; rewrite Hh, (touched_held _ _ Hh);
    eexists; split; reflexivity.
Qed.

(** So is a malformed duration. *)
Lemma timedwait_invalid (time : timespec) :
  holds (this w) (self w) = false -> ~ valid time ->
  throws_with_queue (timedwait time w) (invalid_argument INVALID_TIMESPEC) q.
Proof.
  subst q. destruct w as [me e s sc lg]. cbn [self errno this script log].
  intros Hh Hv. unfold throws_with_queue, timedwait. enter. rewrite Hh. body.
  destruct (touched_fields me s) as (_ & _ & _ & Hq).
  destruct (_ || _) eqn:E.
  - eexists. split; [reflexivity|]. exact Hq.
  - exfalso. apply Hv. unfold valid.
    apply orb_false_elim in E. destruct E as [E E3].
    apply orb_false_elim in E. destruct E as [E1 E2].
    apply Z.ltb_ge in E1. apply Z.ltb_ge in E2. apply Z.leb_gt in E3. lia.
Qed.

(** The ways out that take the queue depth back. *)
Lemma wait_success (r : reply obj) (rest : list (reply obj)) :
  holds (this w) (self w) = false ->
  script w = r :: rest -> ret_code r = 0 -> 0 < sem (this w) ->
  returns_with_queue (wait w) tt (uint q) /\
  returns_with_queue (trywait w) true (uint q).
Proof.
  subst q. destruct w as [me e s sc lg]. cbn [self errno this script log].
  intros Hh -> Hr Hs. unfold returns_with_queue, wait, trywait.
  destruct (touched_fields me s) as (Hsem & _ & _ & Hq).
  apply Z.ltb_lt in Hs.
  split; enter; rewrite Hh; body; rewrite Hr; cbn; rewrite Hsem, Hs; cbn;
    rewrite Hq, uint_incr_decr; eexists; split; reflexivity.
Qed.

Lemma trywait_contended (r : reply obj) (rest : list (reply obj)) :
  holds (this w) (self w) = false ->
  script w = r :: rest -> ret_code r <> 0 -> err r = EAGAIN ->
  returns_with_queue (trywait w) false (uint q).
Proof.
  subst q. destruct w as [me e s sc lg]. cbn [self errno this script log].
  intros Hh -> Hr He. unfold returns_with_queue, trywait. enter.
  rewrite Hh. body. rewrite (eqb_code_false _ Hr). cbn.
  rewrite He. cbn.
  destruct (touched_fields me s) as (_ & _ & _ & Hq).
  rewrite Hq, uint_incr_decr. eexists. split; reflexivity.
Qed.

Lemma timedwait_expired (time : timespec) (now r : reply obj)
  (rest : list (reply obj)) :
  holds (this w) (self w) = false -> valid time ->
  script w = now :: r :: rest -> ret_code now = 0 ->
  ret_code r = 0 -> sem (this w) <= 0 ->
  returns_with_queue (timedwait time w) false (uint q).
Proof.
  subst q. destruct w as [me e s sc lg]. cbn [self errno this script log].
  intros Hh Hv -> Hn Hr Hs. unfold returns_with_queue, timedwait. enter.
  rewrite Hh. body. rewrite (valid_check _ Hv). run.
  rewrite Hn. cbn.
  destruct (touched_fields me s) as (Hsem & _ & _ & Hq).
  assert (E : (0 <? sem s) = false) by (apply Z.ltb_ge; lia).
  destruct (NSEC_PER_SEC <=? _); cbn;
    rewrite Hr; cbn; rewrite Hsem, E; cbn;
    rewrite Hq, uint_incr_decr; eexists; split; reflexivity.
Qed.

Ltac untouched Hq :=
  left; split; [cbn; exact Hq | unfold before_queue; eauto].
Ltac raised Hq :=
  right; split; [cbn; rewrite Hq; reflexivity | eauto].

Lemma acquire_throw_cases (e : exception) (w' : world obj) :
  wait w = Throw e w' \/ trywait w = Throw e w' \/
  (exists time, timedwait time w = Throw e w') ->
  (thread_queue (this w') = q /\ before_queue e) \/
  (thread_queue (this w') = uint (q + 1) /\
   exists c, e = system_error "sem_wait" c).
Proof.
  subst q. destruct w as [me e0 s sc lg]. cbn [self errno this script log].
  destruct (touched_fields me s) as (_ & _ & _ & Hq).
  intros [H | [H | [time H]]]; revert H.
  - unfold wait. enter.
    destruct (holds s me); [intros [= <- <-]; untouched Hq|].
    body. destruct sc as [|r rest]; [discriminate|].
    destruct (ret_code r =? 0); cbn.
    + destruct (0 <? _); cbn; discriminate.
    + intros [= <- <-]. raised Hq.
  - unfold trywait. enter.
    destruct (holds s me); [intros [= <- <-]; untouched Hq|].
    body. destruct sc as [|r rest]; [discriminate|].
    destruct (ret_code r =? 0); cbn.
    + destruct (0 <? _); cbn; discriminate.
    + destruct (err r =? EAGAIN); cbn; [discriminate|].
      intros [= <- <-]. raised Hq.
  - unfold timedwait. enter.
    destruct (holds s me); [intros [= <- <-]; untouched Hq|].
    body.
    destruct (_ || _); [intros [= <- <-]; untouched Hq|].
    run. destruct sc as [|now rest]; [discriminate|].
    destruct (ret_code now =? 0) eqn:En; cbn.
    + destruct (NSEC_PER_SEC <=? _); cbn;
        (destruct rest as [|r rest]; [discriminate|]);
        (destruct (ret_code r =? 0); cbn;
         [ destruct (0 <? _); cbn; discriminate
         | destruct (err r =? ETIMEDOUT); cbn; [discriminate|];
           intros [= <- <-]; raised Hq ]).
    + rewrite En. cbn. intros [= <- <-]. untouched Hq.
Qed.

(** Whenever an acquire method returns, the queue depth is back. *)
Lemma acquire_return_queue :
  (forall a w', wait w = Return a w' -> thread_queue (this w') = uint q) /\
  (forall a w', trywait w = Return a w' -> thread_queue (this w') = uint q) /\
  (forall time a w',
     timedwait time w = Return a w' -> thread_queue (this w') = uint q).
Proof.
  subst q. destruct w as [me e0 s sc lg]. cbn [self errno this script log].
  destruct (touched_fields me s) as (_ & _ & _ & Hq).
  split; [|split].
  - intros a w'. unfold wait. enter.
    destruct (holds s me); [discriminate|].
    body. destruct sc as [|r rest]; [discriminate|].
    destruct (ret_code r =? 0); cbn; [|discriminate].
    destruct (0 <? _); cbn; [|discriminate].
    intros [= <- <-]. cbn. rewrite Hq. apply uint_incr_decr.
  - intros a w'. unfold trywait. enter.
    destruct (holds s me); [discriminate|].
    body. destruct sc as [|r rest]; [discriminate|].
    destruct (ret_code r =? 0); cbn.
    + destruct (0 <? _); cbn; [|discriminate].
      intros [= <- <-]. cbn. rewrite Hq. apply uint_incr_decr.
    + destruct (err r =? EAGAIN); cbn; [|discriminate].
      intros [= <- <-]. cbn. rewrite Hq. apply uint_incr_decr.
  - intros time a w'. unfold timedwait. enter.
    destruct (holds s me); [discriminate|].
    body.
    destruct (_ || _); [discriminate|].
    run. destruct sc as [|now rest]; [discriminate|].
    destruct (ret_code now =? 0) eqn:En; cbn;
      [|rewrite En; cbn; discriminate].
    destruct (NSEC_PER_SEC <=? _); cbn;
      (destruct rest as [|r rest]; [discriminate|]);
      (destruct (ret_code r =? 0); cbn;
       [ destruct (0 <? _); cbn; intros [= <- <-]; cbn; rewrite Hq;
         apply uint_incr_decr
       | destruct (err r =? ETIMEDOUT); cbn; [|discriminate];
         intros [= <- <-]; cbn; rewrite Hq; apply uint_incr_decr ]).
Qed.

Lemma timedwait_success (time : timespec) (now r : reply obj)
  (rest : list (reply obj)) :
  holds (this w) (self w) = false -> valid time ->
  script w = now :: r :: rest -> ret_code now = 0 ->
  ret_code r = 0 -> 0 < sem (this w) ->
  returns_with_queue (timedwait time w) true (uint q).
Proof.
  subst q. destruct w as [me e s sc lg]. cbn [self errno this script log].
  intros Hh Hv -> Hn Hr Hs. unfold returns_with_queue, timedwait. enter.
  rewrite Hh. body. rewrite (valid_check _ Hv). run.
  rewrite Hn. cbn.
  destruct (touched_fields me s) as (Hsem & _ & _ & Hq).
  apply Z.ltb_lt in Hs.
  destruct (NSEC_PER_SEC <=? _); cbn;
    rewrite Hr; cbn; rewrite Hsem, Hs; cbn;
    rewrite Hq, uint_incr_decr; eexists; split; reflexivity.
Qed.
End Acquire.

(** C10, as stated, fails: timedwait whose clock read fails throws a system
    error with the queue depth untouched, so DoubleAcquire and
    InvalidArgument are not the only errors raised before it is touched. *)
Lemma timedwait_clock_failure_leaves_queue :
  let w := World 7 0 (Obj 1 ∅ 1 0 4) [fails_errno EINVAL] [] in
  exists w',
    timedwait (Timespec 1 0) w = Throw (system_error "gettimeofday" EINVAL) w' /\
    thread_queue (this w') = thread_queue (this w) /\
    system_error "gettimeofday" EINVAL <> DoubleAcquire /\
    system_error "gettimeofday" EINVAL <> invalid_argument INVALID_TIMESPEC.
Proof.
  cbv zeta. eexists. split; [vm_compute; reflexivity|].
  split; [reflexivity|]. split; discriminate.
Qed.

(** C10, amended.  For a caller that does not hold the semaphore: when the
    native acquire call fails with an OS error, wait, trywait and timedwait
    throw the system error and leave [thread_queue] one higher (modulo
    2^32); on success, on EAGAIN and on expiry it is back at its value.
    Double acquisition and a malformed duration are thrown with
    [thread_queue] untouched, and the only other error thrown that way is
    the system error of the clock read in timedwait. *)
Theorem acquire_queue_depth (w : world obj) :
  let q := thread_queue (this w) in
  (holds (this w) (self w) = false ->
     (forall r rest, script w = r :: rest -> ret_code r <> 0 ->
        throws_with_queue (wait w) (system_error "sem_wait" (err r))
                          (uint (q + 1)) /\
        (err r <> EAGAIN ->
           throws_with_queue (trywait w) (system_error "sem_wait" (err r))
                             (uint (q + 1))) /\
        (err r = EAGAIN -> returns_with_queue (trywait w) false (uint q))) /\
     (forall r rest, script w = r :: rest -> ret_code r = 0 ->
        0 < sem (this w) ->
        returns_with_queue (wait w) tt (uint q) /\
        returns_with_queue (trywait w) true (uint q)) /\
     (forall time now r rest, valid time ->
        script w = now :: r :: rest -> ret_code now = 0 ->
        (ret_code r <> 0 -> err r <> ETIMEDOUT ->
           throws_with_queue (timedwait time w)
                             (system_error "sem_wait" (err r)) (uint (q + 1))) /\
        (ret_code r = 0 -> 0 < sem (this w) ->
           returns_with_queue (timedwait time w) true (uint q)) /\
        (ret_code r = 0 -> sem (this w) <= 0 ->
           returns_with_queue (timedwait time w) false (uint q))) /\
     (forall time, ~ valid time ->
        throws_with_queue (timedwait time w)
                          (invalid_argument INVALID_TIMESPEC) q)) /\
  (holds (this w) (self w) = true -> forall time,
     throws_with_queue (wait w) DoubleAcquire q /\
     throws_with_queue (trywait w) DoubleAcquire q /\
     throws_with_queue (timedwait time w) DoubleAcquire q) /\
  (forall e w',
     wait w = Throw e w' \/ trywait w = Throw e w' \/
     (exists time, timedwait time w = Throw e w') ->
     (thread_queue (this w') = q /\ before_queue e) \/
     (thread_queue (this w') = uint (q + 1) /\
      exists c, e = system_error "sem_wait" c)).
Proof.
  cbv zeta. split; [|split].
  - intros Hh. repeat split.
    + eapply wait_native_failure; eauto.
    + intros He. eapply trywait_native_failure; eauto.
    + intros He. eapply trywait_contended; eauto.
    + eapply wait_success; eauto.
    + eapply wait_success; eauto.
    + intros Hr He. eapply timedwait_native_failure; eauto.
    + intros Hr Hs. eapply timedwait_success; eauto.
    + intros Hr Hs. eapply timedwait_expired; eauto.
    + intros time Hv. apply timedwait_invalid; assumption.
  - intros Hh time. apply acquire_double. exact Hh.
  - apply acquire_throw_cases.
Qed.

(** wait on a free semaphore with sem_wait interrupted (EINTR): the system
    error is thrown and the queue depth stays at 5 instead of 4. *)
Lemma acquire_queue_depth_witness :
  throws_with_queue
    (wait (World 7 0 (Obj 1 ∅ 1 0 4) [fails_errno EINTR] []))
    (system_error "sem_wait" EINTR) 5.
Proof.
  pose proof (acquire_queue_depth
                (World 7 0 (Obj 1 ∅ 1 0 4) [fails_errno EINTR] [])) as H.
  cbv zeta in H. destruct H as [H _].
  destruct (H eq_refl) as [H' _].
  destruct (H' (fails_errno EINTR) [] eq_refl) as [Hw _].
  - cbn. discriminate.
  - exact Hw.
Defined.
End SemaphoreSpec.

(** A result returned by [bind m k] is a result returned by [k]. *)
Lemma bind_Return {Obj A B : Type} (m : M Obj A) (k : A -> M Obj B)
  (P : B -> Prop) (w w' : world Obj) (b : B) :
  (forall a v v', k a v = Return b v' -> P b) ->
  bind m k w = Return b w' -> P b.
Proof.
  intros Hk. unfold bind. destruct (m w) as [a v|e v|v]; try discriminate.
  apply Hk.
Qed.

Lemma bind_step {Obj A B : Type} (m : M Obj A) (k : A -> M Obj B)
  (w w1 : world Obj) (a : A) :
  m w = Return a w1 -> bind m k w = k a w1.
Proof. intros H. unfold bind. rewrite H. reflexivity. Qed.

Module ConditionSpec.
Import Condition.

Lemma wait_loop (waits : list (reply obj)) :
  forall (fuel : nat) (tail : list (reply obj)) (me : pthread_t) (e : Z)
         (c : obj) (lg : list (native * obj)),
    (length waits < fuel)%nat -> sleeps_through waits c ->
    exists lg',
      while fuel
        (s <- load signal_created ;; ret (negb s))
        (temp <- yielding_call PTHREAD_COND_WAIT ;;
         sysexcept (negb (temp =? 0)) "pthread_cond_wait" temp)
        (World me e c (waits ++ tail) lg)
      = Return tt (World me e (after waits c) tail lg').
Proof.
  induction waits as [|r rs IH]; intros fuel tail me e c lg Hf Hs.
  - destruct fuel as [|fuel]; [cbn in Hf; lia|].
    cbn in Hs. cbn [while]. run. rewrite Hs. cbn. eauto.
  - destruct fuel as [|fuel]; [cbn in Hf; lia|].
    destruct Hs as (Hs & Hr & Hrest).
    cbn [while]. run. rewrite Hs. cbn. rewrite Hr. cbn.
    destruct (IH fuel tail me e (meanwhile r c)
                 (lg ++ [(PTHREAD_COND_WAIT, c)])) as [lg' Hlg'];
      [cbn in Hf; lia | exact Hrest |].
    exists lg'. exact Hlg'.
Qed.

Lemma sleeps_through_seen (waits : list (reply obj)) :
  forall c, sleeps_through waits c -> signal_created (after waits c) = true.
Proof.
  induction waits as [|r rs IH]; intros c Hs; cbn in *.
  - exact Hs.
  - apply IH. apply Hs.
Qed.

(** C6. Condition::wait().  Whatever it returns is true.  With the native
    calls succeeding, once the waiter sees the predicate true (at fields
    [c]) it returns true, having taken one off [waiting_thread_count] and
    left [signal_created] set only if the wake-up was a broadcast and
    waiters remain; so after a broadcast the flag is cleared by the waiter
    that takes the count to zero, and after a signal by the one waiter. *)
Theorem wait_spec (w : world obj) :
  (forall b w', wait w = Return b w' -> b = true) /\
  (forall lockr waits unlockr rest,
     script w = lockr :: waits ++ unlockr :: rest ->
     ret_code lockr = 0 -> ret_code unlockr = 0 ->
     let locked := meanwhile lockr (this w) in
     let entered :=
       set_waiting_thread_count
         (size_t (waiting_thread_count locked + 1)) locked in
     sleeps_through waits entered ->
     let c := after waits entered in
     let n := size_t (waiting_thread_count c - 1) in
     let left := Obj (wakeup_by_brodcast c && (0 <? n)) n
                     (wakeup_by_brodcast c) in
     signal_created c = true /\
     (signal_created left = false <->
      wakeup_by_brodcast c = false \/ n = 0) /\
     exists lg',
       wait w =
       Return true
              (World (self w) (errno w) (meanwhile unlockr left) rest lg')).
Proof.
  split.
  - intros b w'. unfold wait.
    repeat (apply (bind_Return _ _ (fun b => b = true)); intros ? ? ?).
    unfold ret. intros [= <- _]. reflexivity.
  - intros lockr waits unlockr rest Hsc Hl Hu locked entered Hs c n left.
    destruct w as [me e c0 sc lg]. cbn [self errno this script log] in *.
    subst sc.
    assert (Hc : signal_created c = true)
      by (apply sleeps_through_seen; exact Hs).
    assert (Hn : 0 <= n < 2 ^ 64) by (apply Z.mod_pos_bound; lia).
    split; [exact Hc|]. split.
    { subst left. cbn. destruct (wakeup_by_brodcast c); cbn.
      - destruct (0 <? n) eqn:E.
        + apply Z.ltb_lt in E. split; [discriminate|].
          intros [H|H]; [discriminate | lia].
        + apply Z.ltb_ge in E. split; [intros _; right; lia | reflexivity].
      - split; [intros _; left|]; reflexivity. }
    destruct (wait_loop waits
                (S (length (lockr :: waits ++ unlockr :: rest)))
                (unlockr :: rest) me e entered
                (lg ++ [(PTHREAD_MUTEX_LOCK, c0)])) as [lg' Hloop];
      [cbn; rewrite length_app; lia | exact Hs |].
    exists (lg' ++ [(PTHREAD_MUTEX_UNLOCK, left)]).
    unfold wait. cbn [script].
    erewrite bind_step by (unfold yielding_call; run; reflexivity).
    rewrite Hl. cbn [Z.eqb negb].
    erewrite bind_step by reflexivity.
    erewrite bind_step by reflexivity.
    erewrite bind_step by exact Hloop.
    fold c. unfold waiting_thread_count_decr. run.
    cbn [wakeup_by_brodcast waiting_thread_count signal_created
         set_waiting_thread_count set_signal_created].
    fold n.
    assert (Hleft : (if negb (wakeup_by_brodcast c) || (n =? 0)
                     then false else signal_created c)
                    = wakeup_by_brodcast c && (0 <? n)).
    { rewrite Hc. destruct (wakeup_by_brodcast c); cbn; [|reflexivity].
      destruct (n =? 0) eqn:E1; destruct (0 <? n) eqn:E2; try reflexivity.
      - apply Z.eqb_eq in E1. apply Z.ltb_lt in E2. lia.
      - apply Z.eqb_neq in E1. apply Z.ltb_ge in E2. lia. }
    destruct (negb (wakeup_by_brodcast c) || (n =? 0)) eqn:E; cbn;
      rewrite Hu; cbn; subst left; rewrite <- Hleft; reflexivity.
Qed.

(** A third waiter joins two others; while it sleeps a broadcast sets the
    flags; it wakes, takes the count to 2 and leaves the flag for the
    others. *)
Lemma wait_spec_witness :
  exists lg',
    wait (World 7 0 (Obj false 2 false)
                [succeeds;
                 Reply 0 0 (Timeval 0 0) 0
                       (fun c => Obj true (waiting_thread_count c) true);
                 succeeds] [])
    = Return true (World 7 0 (Obj true 2 true) [] lg').
Proof.
  pose (woken := Reply 0 0 (Timeval 0 0) 0
                   (fun c => Obj true (waiting_thread_count c) true)).
  destruct (wait_spec (World 7 0 (Obj false 2 false)
                             [succeeds; woken; succeeds] [])) as [_ H].
  destruct (H succeeds [woken] succeeds [] eq_refl eq_refl eq_refl)
    as (_ & _ & lg' & Hw).
  - cbn. repeat split.
  - exists lg'. exact Hw.
Defined.

(** C7. Condition::signal() and broadcast(), the native calls succeeding.
    With [c] the fields once the embedded lock is held: the value returned
    is whether [waiting_thread_count] is nonzero there; [signal_created] is
    set to that value and [wakeup_by_brodcast] to false (signal) or true
    (broadcast) while the lock is held, as the fields logged at the native
    signal and unlock calls show; and whatever the other threads do to the
    fields once the lock is released, the value returned is the one taken
    before. *)
Theorem signal_spec (w : world obj) (lockr sigr unlockr : reply obj)
  (rest : list (reply obj)) :
  script w = lockr :: sigr :: unlockr :: rest ->
  ret_code lockr = 0 -> ret_code sigr = 0 -> ret_code unlockr = 0 ->
  let c := meanwhile lockr (this w) in
  let any := negb (waiting_thread_count c =? 0) in
  let set := fun b => Obj any (waiting_thread_count c) b in
  (any = true <-> waiting_thread_count c <> 0) /\
  signal w =
    Return any
      (World (self w) (errno w) (meanwhile unlockr (set false)) rest
         (log w ++ [(PTHREAD_MUTEX_LOCK, this w);
                    (PTHREAD_COND_SIGNAL, set false);
                    (PTHREAD_MUTEX_UNLOCK, set false)])) /\
  broadcast w =
    Return any
      (World (self w) (errno w) (meanwhile unlockr (set true)) rest
         (log w ++ [(PTHREAD_MUTEX_LOCK, this w);
                    (PTHREAD_COND_BROADCAST, set true);
                    (PTHREAD_MUTEX_UNLOCK, set true)])).
Proof.
  intros Hsc Hl Hg Hu c any set.
  destruct w as [me e c0 sc lg]. cbn [self errno this script log] in *.
  subst sc. split; [|split].
  - subst any. destruct (waiting_thread_count c =? 0) eqn:E; cbn.
    + apply Z.eqb_eq in E. split; [discriminate | intros H; contradiction].
    + apply Z.eqb_neq in E. split; [intros _; exact E | reflexivity].
  - unfold signal. run. rewrite Hl. cbn. rewrite Hg. cbn. rewrite Hu. cbn.
    rewrite <- !app_assoc. reflexivity.
  - unfold broadcast. run. rewrite Hl. cbn. rewrite Hg. cbn. rewrite Hu. cbn.
    rewrite <- !app_assoc. reflexivity.
Qed.

(** signal() with two waiters, the woken one clearing the flag as soon as
    the lock is released: signal() still returns true. *)
Lemma signal_spec_witness :
  signal (World 7 0 (Obj false 2 false)
                [succeeds; succeeds;
                 Reply 0 0 (Timeval 0 0) 0 (fun _ => Obj false 1 false)] [])
  = Return true
      (World 7 0 (Obj false 1 false) []
         [(PTHREAD_MUTEX_LOCK, Obj false 2 false);
          (PTHREAD_COND_SIGNAL, Obj true 2 false);
          (PTHREAD_MUTEX_UNLOCK, Obj true 2 false)]).
Proof.
  pose (taken := Reply 0 0 (Timeval 0 0) 0
                   (fun _ : obj => Obj false 1 false)).
  destruct (signal_spec (World 7 0 (Obj false 2 false)
                               [succeeds; succeeds; taken] [])
                        succeeds succeeds taken []
                        eq_refl eq_refl eq_refl eq_refl) as (_ & Hs & _).
  exact Hs.
Defined.
End ConditionSpec.

Module RW_LockSpec.
Import RW_Lock.

Lemma size_t_restore (n : Z) :
  0 <= n < 2 ^ 64 -> size_t (size_t (n - 1) + 1) = n.
Proof.
  intros H. unfold size_t. rewrite Zplus_mod_idemp_l.
  replace (n - 1 + 1) with n by lia. apply Z.mod_small. exact H.
Qed.

(** C8. RW_Lock::unlock.  With no reader and no writer it throws NotLocked.
    Otherwise the release is a writer's exactly when [write_locked] is
    set.  A writer's release: [write_locked] is false at the native unlock,
    the reader count untouched, and stays false when the call succeeds; when
    the call fails [write_locked] is true again and the system error is
    thrown.  A reader's release: [read_locked] is one less at the native
    unlock and stays so when the call succeeds; when the call fails it is
    the count of before again and the system error is thrown. *)
Theorem rw_unlock_spec (w : world obj) :
  0 <= read_locked (this w) < 2 ^ 64 ->
  let l := this w in
  let n := read_locked l in
  let went := fun (rest : list (reply obj)) (at_unlock left : obj) =>
    World (self w) (errno w) left rest
          (log w ++ [(PTHREAD_RWLOCK_UNLOCK, at_unlock)]) in
  (n = 0 -> write_locked l = false -> unlock w = Throw NotLocked w) /\
  (write_locked l = true ->
     forall r rest, script w = r :: rest ->
       (ret_code r = 0 ->
          unlock w = Return tt (went rest (Obj n false) (Obj n false))) /\
       (ret_code r <> 0 ->
          unlock w =
          Throw (system_error "pthread_rwlock_unlock" (ret_code r))
                (went rest (Obj n false) (Obj n true)))) /\
  (write_locked l = false -> n <> 0 ->
     forall r rest, script w = r :: rest ->
       (ret_code r = 0 ->
          unlock w =
          Return tt (went rest (Obj (n - 1) false) (Obj (n - 1) false))) /\
       (ret_code r <> 0 ->
          unlock w =
          Throw (system_error "pthread_rwlock_unlock" (ret_code r))
                (went rest (Obj (n - 1) false) (Obj n false)))).
Proof.
  intros Hn l n went. destruct w as [me e [k b] sc lg]. subst l n went.
  cbn [self errno this script log read_locked write_locked] in *.
  split; [|split].
  - intros -> ->. reflexivity.
  - intros -> r rest ->.
    assert (Hl : negb (k =? 0) || true = true) by apply orb_true_r.
    split; intros Hr; unfold unlock, is_locked; run;
      cbn [read_locked write_locked]; rewrite Hl; cbn.
    + rewrite Hr. reflexivity.
    + rewrite (eqb_code_false _ Hr). reflexivity.
  - intros -> Hk r rest ->.
    assert (Hl : negb (k =? 0) || false = true).
    { apply Z.eqb_neq in Hk. rewrite Hk. reflexivity. }
    assert (Hdec : size_t (k - 1) = k - 1)
      by (apply Z.mod_small; lia).
    split; intros Hr; unfold unlock, is_locked; run;
      cbn [read_locked write_locked]; rewrite Hl; cbn.
    + rewrite Hr. cbn. unfold set_read_locked. cbn. rewrite Hdec.
      reflexivity.
    + rewrite (eqb_code_false _ Hr). cbn. unfold set_read_locked. cbn.
      rewrite (size_t_restore k Hn), Hdec. reflexivity.
Qed.

(** The native unlock failing.  A writer's unlock with no reader in: the
    flag is false at the native call and true again when the error is
    thrown.  A reader's unlock with two readers in: the count is 1 at the
    native call and 2 again when the error is thrown. *)
Lemma rw_unlock_spec_witness :
  unlock (World 7 0 (Obj 0 true) [answers EINVAL] []) =
  Throw (system_error "pthread_rwlock_unlock" EINVAL)
        (World 7 0 (Obj 0 true) [] [(PTHREAD_RWLOCK_UNLOCK, Obj 0 false)]) /\
  unlock (World 7 0 (Obj 2 false) [answers EINVAL] []) =
  Throw (system_error "pthread_rwlock_unlock" EINVAL)
        (World 7 0 (Obj 2 false) [] [(PTHREAD_RWLOCK_UNLOCK, Obj 1 false)]).
Proof.
  split.
  - assert (Hn : 0 <= 0 < 2 ^ 64) by lia.
    destruct (rw_unlock_spec (World 7 0 (Obj 0 true) [answers EINVAL] []) Hn)
      as (_ & H & _).
    cbn [this self errno script log read_locked write_locked] in H.
    destruct (H eq_refl (answers EINVAL) [] eq_refl) as [_ H'].
    apply H'. cbn. discriminate.
  - assert (Hn : 0 <= 2 < 2 ^ 64) by lia.
    destruct (rw_unlock_spec (World 7 0 (Obj 2 false) [answers EINVAL] []) Hn)
      as (_ & _ & H).
    cbn [this self errno script log read_locked write_locked] in H.
    assert (Hk : 2 <> 0) by discriminate.
    destruct (H eq_refl Hk (answers EINVAL) [] eq_refl) as [_ H'].
    apply H'. cbn. discriminate.
Defined.
End RW_LockSpec.

Module ThreadSpec.
Import Thread.

Ltac joins := unfold join, try_join, timed_join, join_call; run.

Lemma join_detached (w : world obj) (rv : bool) (time : timespec) :
  detachstate (this w) = DETACHED ->
  join rv w = Throw Detached w /\
  try_join rv w = Throw Detached w /\
  timed_join time rv w = Throw Detached w.
Proof.
  destruct w as [me e [id r d] sc lg]. cbn [this detachstate].
  intros ->. repeat split.
Qed.

Lemma join_not_running (w : world obj) (rv : bool) (time : timespec) :
  detachstate (this w) = JOINABLE -> running (this w) = false ->
  join rv w = Throw NotRunning w /\
  try_join rv w = Throw NotRunning w /\
  timed_join time rv w = Throw NotRunning w.
Proof.
  destruct w as [me e [id r d] sc lg]. cbn [this detachstate running].
  intros -> ->. repeat split.
Qed.

(** C9. The join methods.  On a detached thread each throws Detached, on a
    joinable thread that is not running each throws NotRunning, nothing
    changed.  On a running joinable thread: join and try_join whose native
    call succeeds, and timed_join likewise, set [running] to false and
    yield the exit value when a place for it was passed, after which a
    further join throws NotRunning; try_join answered EBUSY returns false
    with nothing changed, its one native call being pthread_tryjoin_np,
    which does not block; timed_join answered ETIMEDOUT returns false with
    nothing changed. *)
Theorem join_spec (w : world obj) (rv : bool) (time : timespec) :
  let t := this w in
  let joined := set_running false t in
  let value := fun r : reply obj => if rv then Some (exit_value r) else None in
  let went := fun (c : native) (rest : list (reply obj)) (t' : obj) =>
    World (self w) (errno w) t' rest (log w ++ [(c, t)]) in
  (detachstate t = DETACHED ->
     join rv w = Throw Detached w /\
     try_join rv w = Throw Detached w /\
     timed_join time rv w = Throw Detached w) /\
  (detachstate t = JOINABLE -> running t = false ->
     join rv w = Throw NotRunning w /\
     try_join rv w = Throw NotRunning w /\
     timed_join time rv w = Throw NotRunning w) /\
  (detachstate t = JOINABLE -> running t = true ->
     (forall r rest, script w = r :: rest ->
        (ret_code r = 0 ->
           join rv w = Return (value r) (went PTHREAD_JOIN rest joined) /\
           join rv (went PTHREAD_JOIN rest joined) =
             Throw NotRunning (went PTHREAD_JOIN rest joined) /\
           try_join rv w =
             Return (true, value r) (went PTHREAD_TRYJOIN_NP rest joined)) /\
        (ret_code r = EBUSY ->
           try_join rv w =
             Return (false, None) (went PTHREAD_TRYJOIN_NP rest t) /\
           may_block PTHREAD_TRYJOIN_NP = false)) /\
     (forall now r rest, valid time ->
        script w = now :: r :: rest -> ret_code now = 0 ->
        let went' := fun t' =>
          World (self w) (errno w) t' rest
                (log w ++ [(GETTIMEOFDAY, t); (PTHREAD_TIMEDJOIN_NP, t)]) in
        (ret_code r = 0 ->
           timed_join time rv w = Return (true, value r) (went' joined)) /\
        (ret_code r = ETIMEDOUT ->
           timed_join time rv w = Return (false, None) (went' t)))).
Proof.
  intros t joined value went. split; [|split].
  - intros Hd. apply join_detached. exact Hd.
  - intros Hd Hr. apply join_not_running; assumption.
  - subst t joined value went.
    destruct w as [me e [id r d] sc lg].
    cbn [self errno this script log detachstate running].
    intros -> ->. split.
    + intros a rest ->. split.
      * intros Ha. repeat split; joins; cbn; rewrite ?Ha; cbn;
          rewrite ?andb_true_r; reflexivity.
      * intros Ha. split; [|reflexivity]. joins. cbn. rewrite Ha. cbn.
        rewrite andb_false_r. reflexivity.
    + intros now a rest Hv -> Hn. split; intros Ha;
        joins; cbn; rewrite (valid_check _ Hv); cbn; rewrite Hn; cbn;
        rewrite Ha; cbn; rewrite <- app_assoc;
        rewrite ?andb_true_r, ?andb_false_r; reflexivity.
Qed.

(** try_join on a running joinable thread that has not finished. *)
Lemma join_spec_witness :
  try_join true (World 7 0 (Obj 9 true JOINABLE) [answers EBUSY] []) =
  Return (false, None)
         (World 7 0 (Obj 9 true JOINABLE) []
                [(PTHREAD_TRYJOIN_NP, Obj 9 true JOINABLE)]).
Proof.
  destruct (join_spec (World 7 0 (Obj 9 true JOINABLE) [answers EBUSY] [])
                      true (Timespec 0 0)) as (_ & _ & H).
  destruct (H eq_refl eq_refl) as [H' _].
  destruct (H' (answers EBUSY) [] eq_refl) as [_ Hb].
  destruct (Hb eq_refl) as [Ht _].
  exact Ht.
Defined.
End ThreadSpec.

(** ** The deadline computation *)

Module DeadlineSpec.

Lemma pthread_timeout_returns {Obj : Type} (ts : timespec) (me : pthread_t)
  (e : Z) (o : Obj) (now : reply Obj) (rest : list (reply Obj))
  (lg : list (native * Obj)) :
  valid ts -> ret_code now = 0 ->
  exists d,
    pthread_timeout ts (World me e o (now :: rest) lg) =
    Return d (World me e o rest (lg ++ [(GETTIMEOFDAY, o)])).
Proof.
  intros Hv Hn. unfold pthread_timeout. rewrite (valid_check _ Hv).
  run. rewrite Hn. cbn.
  destruct (NSEC_PER_SEC <=? _); eexists; reflexivity.
Qed.

Lemma long_small (x : Z) : - 2 ^ 63 <= x < 2 ^ 63 -> long x = x.
Proof.
  intros H. unfold long. rewrite Z.mod_small by lia. lia.
Qed.

(** X1. pthread_timeout on a well-formed duration, the clock read succeeding
    with a time after the epoch, a microsecond part below one million and
    seconds that, added to the duration's, stay below the largest [time_t]:
    the deadline is normalised, it is the clock plus the duration to the
    nanosecond, and the clock read is the one native call made. *)
Theorem pthread_timeout_deadline {Obj : Type} (ts : timespec) (w : world Obj)
  (now : reply Obj) (rest : list (reply Obj)) :
  valid ts -> script w = now :: rest -> ret_code now = 0 ->
  0 <= tv_usec (clock now) < 1000000 ->
  0 <= tv_sec' (clock now) ->
  tv_sec ts + tv_sec' (clock now) < 2 ^ 63 - 1 ->
  exists d,
    pthread_timeout ts w =
    Return d (World (self w) (errno w) (this w) rest
                    (log w ++ [(GETTIMEOFDAY, this w)])) /\
    0 <= tv_nsec d < NSEC_PER_SEC /\
    tv_sec d * NSEC_PER_SEC + tv_nsec d =
    (tv_sec ts + tv_sec' (clock now)) * NSEC_PER_SEC
    + tv_nsec ts + tv_usec (clock now) * NSEC_PER_USEC.
Proof.
  destruct w as [me e o sc lg]. cbn [self errno this script log].
  intros Hv -> Hn Hu Hc Hs. unfold pthread_timeout. rewrite (valid_check _ Hv).
  run. rewrite Hn. cbn.
  destruct Hv as [Hsec Hns]. unfold NSEC_PER_SEC, NSEC_PER_USEC in *.
  rewrite (long_small (tv_usec (clock now) * 1000)) by lia.
  rewrite (long_small (tv_nsec ts + tv_usec (clock now) * 1000)) by lia.
  rewrite (long_small (tv_sec ts + tv_sec' (clock now))) by lia.
  destruct (1000000000 <=? tv_nsec ts + tv_usec (clock now) * 1000) eqn:E.
  - apply Z.leb_le in E. eexists. split; [reflexivity|].
    cbn [tv_sec tv_nsec]. rewrite !long_small by lia. lia.
  - apply Z.leb_gt in E. eexists. split; [reflexivity|]. cbn. lia.
Qed.

(** 0.75 s asked at 10.5 s on the clock: the deadline is 11.25 s. *)
Lemma pthread_timeout_deadline_witness :
  exists d,
    pthread_timeout (Timespec 0 750000000)
      (World 7 0 tt [Reply 0 0 (Timeval 10 500000) 0 (fun o => o)] []) =
    Return d (World 7 0 tt [] [(GETTIMEOFDAY, tt)]) /\
    d = Timespec 11 250000000.
Proof.
  destruct (pthread_timeout_deadline (Timespec 0 750000000)
              (World 7 0 tt [Reply 0 0 (Timeval 10 500000) 0 (fun o => o)] [])
              (Reply 0 0 (Timeval 10 500000) 0 (fun o => o)) [])
    as (d & Hd & _).
  - unfold valid, NSEC_PER_SEC. cbn. lia.
  - reflexivity.
  - reflexivity.
  - cbn. lia.
  - cbn. lia.
  - cbn. lia.
  - exists d. split; [exact Hd|].
    vm_compute in Hd. injection Hd as <-. reflexivity.
Defined.

(** X2. pthread_timeout throws invalid_argument exactly for the malformed
    durations, and then nothing has happened: the clock has not been read. *)
Theorem pthread_timeout_rejects {Obj : Type} (ts : timespec) (w : world Obj) :
  (~ valid ts ->
   pthread_timeout ts w = Throw (invalid_argument INVALID_TIMESPEC) w) /\
  (valid ts ->
   forall what w', pthread_timeout ts w <> Throw (invalid_argument what) w').
Proof.
  split.
  - intros Hv. unfold pthread_timeout.
    destruct (_ || _) eqn:E; [reflexivity|].
    exfalso. apply Hv. unfold valid.
    apply orb_false_elim in E. destruct E as [E E3].
    apply orb_false_elim in E. destruct E as [E1 E2].
    apply Z.ltb_ge in E1. apply Z.ltb_ge in E2. apply Z.leb_gt in E3. lia.
  - intros Hv what w'. unfold pthread_timeout. rewrite (valid_check _ Hv).
    destruct w as [me e o sc lg]. run.
    destruct sc as [|now rest]; [discriminate|].
    destruct (ret_code now =? 0) eqn:En; cbn.
    + destruct (NSEC_PER_SEC <=? _); discriminate.
    + rewrite En. cbn. discriminate.
Qed.

(** One second and a full billion nanoseconds is refused. *)
Lemma pthread_timeout_rejects_witness :
  pthread_timeout (Timespec 1 1000000000) (World 7 0 tt [succeeds] []) =
  Throw (invalid_argument INVALID_TIMESPEC) (World 7 0 tt [succeeds] []).
Proof.
  apply (pthread_timeout_rejects (Timespec 1 1000000000)
           (World 7 0 tt [succeeds] [])).
  unfold valid, NSEC_PER_SEC. cbn. lia.
Defined.

End DeadlineSpec.

(** ** The locking protocol of Mutex *)

Module MutexProtocol.
Import Mutex.

Ltac locks :=
  unfold lock, trylock, unlock, part_007.timedlock, Condition_cpp.timedlock,
    pthread_timeout; run.


Lemma not_owner_check (m : obj) (me : pthread_t) :
  owner m <> Some me -> locked m && (lock_thread m =? me) = false.
Proof.
  destruct m as [t l]. unfold owner. cbn. intros Ho.
  destruct l; [|reflexivity]. cbn.
  apply Z.eqb_neq. intros ->. apply Ho. reflexivity.
Qed.

(** X4. lock followed by unlock, by a thread that does not own the mutex and
    with both native calls succeeding, leaves the mutex unlocked: is_locked
    reports false and one more unlock throws NotLocked. *)
Theorem lock_unlock_round_trip (w : world obj) (r1 r2 : reply obj)
  (rest : list (reply obj)) :
  owner (this w) <> Some (self w) ->
  script w = r1 :: r2 :: rest -> ret_code r1 = 0 -> ret_code r2 = 0 ->
  let w' := World (self w) (errno w) (Obj (self w) false) rest
                  (log w ++ [(PTHREAD_MUTEX_LOCK, this w);
                             (PTHREAD_MUTEX_UNLOCK, Obj (self w) false)]) in
  (lock ;; unlock) w = Return tt w' /\
  is_locked w' = Return false w' /\
  unlock w' = Throw NotLocked w'.
Proof.
  destruct w as [me e m sc lg]. cbn [self errno this script log].
  intros Ho -> H1 H2. cbv zeta. split; [|split; reflexivity].
  locks. rewrite (not_owner_check _ _ Ho). cbn. rewrite H1. cbn.
  rewrite Z.eqb_refl. cbn. rewrite H2. cbn.
  rewrite <- app_assoc. reflexivity.
Qed.

Lemma lock_unlock_round_trip_witness :
  (lock ;; unlock) (World 7 0 Mutex [succeeds; succeeds] []) =
  Return tt (World 7 0 (Obj 7 false) []
                   [(PTHREAD_MUTEX_LOCK, Obj 0 false);
                    (PTHREAD_MUTEX_UNLOCK, Obj 7 false)]).
Proof.
  destruct (lock_unlock_round_trip (World 7 0 Mutex [succeeds; succeeds] [])
              succeeds succeeds []) as [H _];
    [discriminate | reflexivity | reflexivity | reflexivity | exact H].
Defined.

(** X5. Once lock has succeeded the mutex is the caller's: the caller's own
    lock and trylock throw DoubleLock without a native call, and unlock by
    any other thread throws OwnerMismatch, the mutex staying with the
    caller. *)
Theorem lock_gives_ownership (w : world obj) (r : reply obj)
  (rest : list (reply obj)) :
  owner (this w) <> Some (self w) ->
  script w = r :: rest -> ret_code r = 0 ->
  exists w1,
    lock w = Return tt w1 /\
    owner (this w1) = Some (self w) /\
    lock w1 = Throw DoubleLock w1 /\
    trylock w1 = Throw DoubleLock w1 /\
    forall other, other <> self w ->
      unlock (as_thread other w1) = Throw OwnerMismatch (as_thread other w1).
Proof.
  destruct w as [me e m sc lg]. cbn [self errno this script log].
  intros Ho -> Hr. eexists. split.
  { locks. rewrite (not_owner_check _ _ Ho). cbn. rewrite Hr. reflexivity. }
  split; [reflexivity|]. split.
  { locks. cbn. rewrite Z.eqb_refl. reflexivity. }
  split.
  { locks. cbn. rewrite Z.eqb_refl. reflexivity. }
  intros other Hne. unfold as_thread. locks. cbn.
  apply Z.eqb_neq in Hne. rewrite Hne. reflexivity.
Qed.

Lemma lock_gives_ownership_witness :
  exists w1,
    lock (World 7 0 Mutex [succeeds] []) = Return tt w1 /\
    unlock (as_thread 8 w1) = Throw OwnerMismatch (as_thread 8 w1).
Proof.
  destruct (lock_gives_ownership (World 7 0 Mutex [succeeds] []) succeeds [])
    as (w1 & Hl & _ & _ & _ & Hu);
    [discriminate | reflexivity | reflexivity |].
  exists w1. split; [exact Hl|]. apply Hu. cbn. discriminate.
Defined.

(** X6. trylock by a thread that does not own the mutex, by the code the native
    call returns: 0 gives true, EBUSY gives false with the fields as they
    were, any other code the system error; the native call it issues is
    pthread_mutex_trylock alone, which does not block. *)
Theorem trylock_outcomes (w : world obj) (r : reply obj)
  (rest : list (reply obj)) :
  owner (this w) <> Some (self w) -> script w = r :: rest ->
  let went := fun m =>
    World (self w) (errno w) m rest
          (log w ++ [(PTHREAD_MUTEX_TRYLOCK, this w)]) in
  may_block PTHREAD_MUTEX_TRYLOCK = false /\
  (ret_code r = 0 -> trylock w = Return true (went (Obj (self w) true))) /\
  (ret_code r = EBUSY -> trylock w = Return false (went (this w))) /\
  (ret_code r <> 0 -> ret_code r <> EBUSY ->
     trylock w =
     Throw (system_error "pthread_mutex_trylock" (ret_code r)) (went (this w))).
Proof.
  destruct w as [me e m sc lg]. cbn [self errno this script log].
  intros Ho ->. cbv zeta. split; [reflexivity|].
  repeat split; intros Hr; locks; rewrite (not_owner_check _ _ Ho); cbn.
  - rewrite Hr. reflexivity.
  - rewrite Hr. reflexivity.
  - intros Hb. apply Z.eqb_neq in Hr, Hb. rewrite Hr, Hb. reflexivity.
Qed.

Lemma trylock_outcomes_witness :
  trylock (World 7 0 (Obj 8 true) [answers EBUSY] []) =
  Return false (World 7 0 (Obj 8 true) []
                      [(PTHREAD_MUTEX_TRYLOCK, Obj 8 true)]).
Proof.
  destruct (trylock_outcomes (World 7 0 (Obj 8 true) [answers EBUSY] [])
              (answers EBUSY) []) as (_ & _ & H & _);
    [cbn; congruence | reflexivity |].
  apply H. reflexivity.
Defined.

(** X7. The two versions of timedlock differ only in the double-lock check: for
    a caller that does not own the mutex they do the same, whatever the
    duration and the answers. *)
Theorem timedlock_versions_agree (w : world obj) (time : timespec) :
  owner (this w) <> Some (self w) ->
  Condition_cpp.timedlock time w = part_007.timedlock time w.
Proof.
  destruct w as [me e m sc lg]. cbn [self this]. intros Ho.
  unfold part_007.timedlock, Condition_cpp.timedlock. symmetry.
  erewrite bind_step by reflexivity.
  erewrite bind_step by reflexivity.
  erewrite bind_step by reflexivity.
  cbn [this self]. rewrite (not_owner_check _ _ Ho). reflexivity.
Qed.

Lemma timedlock_versions_agree_witness :
  Condition_cpp.timedlock (Timespec 1 0)
    (World 7 0 (Obj 8 true) [succeeds; answers ETIMEDOUT] []) =
  part_007.timedlock (Timespec 1 0)
    (World 7 0 (Obj 8 true) [succeeds; answers ETIMEDOUT] []).
Proof.
  apply (timedlock_versions_agree
           (World 7 0 (Obj 8 true) [succeeds; answers ETIMEDOUT] [])).
  cbn. congruence.
Defined.

End MutexProtocol.

(** ** Condition: the timed wait and the failure paths *)

Lemma bind_throws {Obj A B : Type} (m : M Obj A) (k : A -> M Obj B)
  (w w1 : world Obj) (e : exception) :
  m w = Throw e w1 -> bind m k w = Throw e w1.
Proof. intros H. unfold bind. rewrite H. reflexivity. Qed.

Module ConditionTimed.
Import Condition.

Lemma timed_loop_signalled (waits : list (reply obj)) :
  forall (fuel : nat) (tail : list (reply obj)) (me : pthread_t) (e : Z)
         (c : obj) (lg : list (native * obj)),
    (length waits < fuel)%nat -> sleeps_through waits c ->
    exists lg',
      timedwait_loop fuel (World me e c (waits ++ tail) lg)
      = Return true (World me e (after waits c) tail lg').
Proof.
  induction waits as [|r rs IH]; intros fuel tail me e c lg Hf Hs.
  - destruct fuel as [|fuel]; [cbn in Hf; lia|].
    cbn in Hs. cbn [timedwait_loop]. run. rewrite Hs. cbn. eauto.
  - destruct fuel as [|fuel]; [cbn in Hf; lia|].
    destruct Hs as (Hs & Hr & Hrest).
    cbn [timedwait_loop]. run. rewrite Hs. cbn. rewrite Hr. cbn.
    destruct (IH fuel tail me e (meanwhile r c)
                 (lg ++ [(PTHREAD_COND_TIMEDWAIT, c)])) as [lg' Hlg'];
      [cbn in Hf; lia | exact Hrest |].
    exists lg'. exact Hlg'.
Qed.

Lemma timed_loop_expired (waits : list (reply obj)) :
  forall (fuel : nat) (tr : reply obj) (tail : list (reply obj))
         (me : pthread_t) (e : Z) (c : obj) (lg : list (native * obj)),
    (S (length waits) < fuel)%nat -> sleeps_on waits c ->
    ret_code tr = ETIMEDOUT ->
    exists lg',
      timedwait_loop fuel (World me e c (waits ++ tr :: tail) lg)
      = Return false (World me e (meanwhile tr (after waits c)) tail lg').
Proof.
  induction waits as [|r rs IH]; intros fuel tr tail me e c lg Hf Hs Ht.
  - destruct fuel as [|fuel]; [cbn in Hf; lia|].
    destruct Hs as [Hs _]. cbn [timedwait_loop app]. run. rewrite Hs. cbn.
    rewrite Ht. cbn. eauto.
  - destruct fuel as [|fuel]; [cbn in Hf; lia|].
    destruct Hs as (Hs & Hr & Hrest).
    cbn [timedwait_loop app]. run. rewrite Hs. cbn. rewrite Hr. cbn.
    destruct (IH fuel tr tail me e (meanwhile r c)
                 (lg ++ [(PTHREAD_COND_TIMEDWAIT, c)])) as [lg' Hlg'];
      [cbn in Hf; lia | exact Hrest | exact Ht |].
    exists lg'. exact Hlg'.
Qed.

(** What follows the loop in both waits, on fields [c], the unlock
    succeeding. *)
Lemma leave_and_unlock (b : bool) (me : pthread_t) (e : Z) (c : obj)
  (unlockr : reply obj) (rest : list (reply obj)) (lg : list (native * obj)) :
  ret_code unlockr = 0 ->
  (waiting_thread_count_decr ;;
   bc <- load wakeup_by_brodcast ;;
   n <- load waiting_thread_count ;;
   (if negb bc || (n =? 0) then store (set_signal_created false) else ret tt) ;;
   temp <- yielding_call PTHREAD_MUTEX_UNLOCK ;;
   sysexcept (negb (temp =? 0)) "pthread_mutex_unlock" temp ;;
   ret b) (World me e c (unlockr :: rest) lg)
  = Return b (World me e (meanwhile unlockr (leave c)) rest
                    (lg ++ [(PTHREAD_MUTEX_UNLOCK, leave c)])).
Proof.
  intros Hu. unfold waiting_thread_count_decr, leave. run.
  cbn [wakeup_by_brodcast waiting_thread_count signal_created
       set_waiting_thread_count set_signal_created].
  destruct (negb (wakeup_by_brodcast c)
            || (size_t (waiting_thread_count c - 1) =? 0)); cbn;
    rewrite Hu; reflexivity.
Qed.

(** X8. The timed wait that sees the predicate true, the native calls
    succeeding: it returns true and leaves the fields as the untimed wait
    does. *)
Theorem wait_timespec_signalled (w : world obj) (time : timespec)
  (now lockr unlockr : reply obj) (waits rest : list (reply obj)) :
  valid time ->
  script w = now :: lockr :: waits ++ unlockr :: rest ->
  ret_code now = 0 -> ret_code lockr = 0 -> ret_code unlockr = 0 ->
  sleeps_through waits (enter lockr (this w)) ->
  exists lg',
    wait_timespec time w =
    Return true
      (World (self w) (errno w)
             (meanwhile unlockr (leave (after waits (enter lockr (this w)))))
             rest lg').
Proof.
  destruct w as [me e c0 sc lg]. cbn [self errno this script log].
  intros Hv -> Hn Hl Hu Hs.
  destruct (timed_loop_signalled waits
              (S (length (now :: lockr :: waits ++ unlockr :: rest)))
              (unlockr :: rest) me e (enter lockr c0)
              (lg ++ [(GETTIMEOFDAY, c0)] ++ [(PTHREAD_MUTEX_LOCK, c0)]))
    as [lg' Hloop]; [cbn; rewrite length_app; lia | exact Hs |].
  destruct (DeadlineSpec.pthread_timeout_returns time me e c0 now
              (lockr :: waits ++ unlockr :: rest) lg Hv Hn) as [d Hd].
  eexists. unfold wait_timespec. cbn [script].
  erewrite bind_step by exact Hd.
  erewrite bind_step by (unfold yielding_call; run; reflexivity).
  rewrite Hl. cbn [Z.eqb negb].
  erewrite bind_step by reflexivity.
  erewrite bind_step by reflexivity.
  rewrite <- app_assoc.
  erewrite bind_step by exact Hloop.
  apply leave_and_unlock. exact Hu.
Qed.

Lemma wait_timespec_signalled_witness :
  exists lg',
    wait_timespec (Timespec 1 0)
      (World 7 0 (Obj false 0 false)
             [succeeds; succeeds;
              Reply 0 0 (Timeval 0 0) 0 (fun _ => Obj true 1 false);
              succeeds] [])
    = Return true (World 7 0 (Obj false 0 false) [] lg').
Proof.
  pose (woken := Reply 0 0 (Timeval 0 0) 0
                   (fun _ : obj => Obj true 1 false)).
  destruct (wait_timespec_signalled
              (World 7 0 (Obj false 0 false)
                     [succeeds; succeeds; woken; succeeds] [])
              (Timespec 1 0) succeeds succeeds succeeds [woken] [])
    as [lg' H].
  - unfold valid, NSEC_PER_SEC. cbn. lia.
  - reflexivity.
  - reflexivity.
  - reflexivity.
  - reflexivity.
  - cbn. repeat split.
  - exists lg'. exact H.
Defined.

(** X9. The timed wait whose native wait runs into the deadline: it returns
    false, after the same bookkeeping as a woken waiter.  A signal that
    arrives together with the deadline is therefore taken by this caller,
    who reports false: [signal_created] is cleared unless a broadcast has
    waiters left. *)
Theorem wait_timespec_expires (w : world obj) (time : timespec)
  (now lockr tr unlockr : reply obj) (waits rest : list (reply obj)) :
  valid time ->
  script w = now :: lockr :: waits ++ tr :: unlockr :: rest ->
  ret_code now = 0 -> ret_code lockr = 0 -> ret_code tr = ETIMEDOUT ->
  ret_code unlockr = 0 ->
  sleeps_on waits (enter lockr (this w)) ->
  let c := meanwhile tr (after waits (enter lockr (this w))) in
  (exists lg',
     wait_timespec time w =
     Return false
       (World (self w) (errno w) (meanwhile unlockr (leave c)) rest lg')) /\
  (wakeup_by_brodcast c = false -> signal_created (leave c) = false).
Proof.
  intros Hv Hsc Hn Hl Ht Hu Hs c.
  destruct w as [me e c0 sc lg]. cbn [self errno this script log] in *.
  subst sc. split.
  - destruct (timed_loop_expired waits
                (S (length (now :: lockr :: waits ++ tr :: unlockr :: rest)))
                tr (unlockr :: rest) me e (enter lockr c0)
                (lg ++ [(GETTIMEOFDAY, c0)] ++ [(PTHREAD_MUTEX_LOCK, c0)]))
      as [lg' Hloop];
      [cbn; rewrite length_app; cbn; lia | exact Hs | exact Ht |].
    destruct (DeadlineSpec.pthread_timeout_returns time me e c0 now
                (lockr :: waits ++ tr :: unlockr :: rest) lg Hv Hn) as [d Hd].
    eexists. unfold wait_timespec. cbn [script].
    erewrite bind_step by exact Hd.
    erewrite bind_step by (unfold yielding_call; run; reflexivity).
    rewrite Hl. cbn [Z.eqb negb].
    erewrite bind_step by reflexivity.
    erewrite bind_step by reflexivity.
    rewrite <- app_assoc.
    erewrite bind_step by exact Hloop.
    apply leave_and_unlock. exact Hu.
  - intros Hb. unfold leave. cbn. rewrite Hb. reflexivity.
Qed.

(** One waiter, timed; a signal is raised at the moment its wait expires.
    The call returns false and the signal is gone. *)
Lemma wait_timespec_expires_witness :
  exists lg',
    wait_timespec (Timespec 1 0)
      (World 7 0 (Obj false 0 false)
             [succeeds; succeeds;
              Reply ETIMEDOUT 0 (Timeval 0 0) 0 (fun _ => Obj true 1 false);
              succeeds] [])
    = Return false (World 7 0 (Obj false 0 false) [] lg').
Proof.
  pose (late := Reply ETIMEDOUT 0 (Timeval 0 0) 0
                  (fun _ : obj => Obj true 1 false)).
  destruct (wait_timespec_expires
              (World 7 0 (Obj false 0 false)
                     [succeeds; succeeds; late; succeeds] [])
              (Timespec 1 0) succeeds succeeds late succeeds [] [])
    as [[lg' H] _].
  - unfold valid, NSEC_PER_SEC. cbn. lia.
  - reflexivity.
  - reflexivity.
  - reflexivity.
  - reflexivity.
  - reflexivity.
  - cbn. repeat split.
  - exists lg'. exact H.
Defined.

Lemma wait_loop_fails (waits : list (reply obj)) :
  forall (fuel : nat) (bad : reply obj) (tail : list (reply obj))
         (me : pthread_t) (e : Z) (c : obj) (lg : list (native * obj)),
    (S (length waits) < fuel)%nat -> sleeps_on waits c ->
    ret_code bad <> 0 ->
    exists lg',
      while fuel
        (s <- load signal_created ;; ret (negb s))
        (temp <- yielding_call PTHREAD_COND_WAIT ;;
         sysexcept (negb (temp =? 0)) "pthread_cond_wait" temp)
        (World me e c (waits ++ bad :: tail) lg)
      = Throw (system_error "pthread_cond_wait" (ret_code bad))
              (World me e (meanwhile bad (after waits c)) tail (lg ++ lg')) /\
      Forall (fun c => fst c = PTHREAD_COND_WAIT) lg'.
Proof.
  induction waits as [|r rs IH]; intros fuel bad tail me e c lg Hf Hs Hb.
  - destruct fuel as [|fuel]; [cbn in Hf; lia|].
    destruct Hs as [Hs _]. cbn [while app]. run. rewrite Hs. cbn.
    rewrite (eqb_code_false _ Hb). cbn.
    exists [(PTHREAD_COND_WAIT, c)]. split; [reflexivity|].
    constructor; [reflexivity | constructor].
  - destruct fuel as [|fuel]; [cbn in Hf; lia|].
    destruct Hs as (Hs & Hr & Hrest).
    cbn [while app]. run. rewrite Hs. cbn. rewrite Hr. cbn.
    destruct (IH fuel bad tail me e (meanwhile r c)
                 (lg ++ [(PTHREAD_COND_WAIT, c)])) as (lg' & Hlg' & Hall);
      [cbn in Hf; lia | exact Hrest | exact Hb |].
    exists ((PTHREAD_COND_WAIT, c) :: lg'). split.
    + rewrite <- app_assoc in Hlg'. exact Hlg'.
    + constructor; [reflexivity | exact Hall].
Qed.

(** X10. wait() whose pthread_cond_wait fails throws the system error from
    inside the loop: the caller is still counted in [waiting_thread_count]
    (nothing is taken off) and the embedded mutex is still locked, no native
    unlock being issued after the lock. *)
Theorem wait_failure_keeps_lock (w : world obj) (lockr bad : reply obj)
  (waits rest : list (reply obj)) :
  script w = lockr :: waits ++ bad :: rest ->
  ret_code lockr = 0 -> ret_code bad <> 0 ->
  sleeps_on waits (enter lockr (this w)) ->
  exists lg',
    wait w =
    Throw (system_error "pthread_cond_wait" (ret_code bad))
          (World (self w) (errno w)
                 (meanwhile bad (after waits (enter lockr (this w)))) rest
                 (log w ++ (PTHREAD_MUTEX_LOCK, this w) :: lg')) /\
    Forall (fun c => fst c = PTHREAD_COND_WAIT) lg'.
Proof.
  destruct w as [me e c0 sc lg]. cbn [self errno this script log].
  intros -> Hl Hb Hs.
  destruct (wait_loop_fails waits
              (S (length (lockr :: waits ++ bad :: rest)))
              bad rest me e (enter lockr c0)
              (lg ++ [(PTHREAD_MUTEX_LOCK, c0)]))
    as (lg' & Hloop & Hall);
    [cbn; rewrite length_app; cbn; lia | exact Hs | exact Hb |].
  exists lg'. split; [|exact Hall].
  unfold wait. cbn [script].
  erewrite bind_step by (unfold yielding_call; run; reflexivity).
  rewrite Hl. cbn [Z.eqb negb].
  erewrite bind_step by reflexivity.
  erewrite bind_step by reflexivity.
  erewrite bind_throws by exact Hloop.
  rewrite <- app_assoc. reflexivity.
Qed.

Lemma wait_failure_keeps_lock_witness :
  exists lg',
    wait (World 7 0 (Obj false 0 false) [succeeds; answers EINVAL] []) =
    Throw (system_error "pthread_cond_wait" EINVAL)
          (World 7 0 (Obj false 1 false) []
                 ([] ++ (PTHREAD_MUTEX_LOCK, Obj false 0 false) :: lg')) /\
    Forall (fun c => fst c = PTHREAD_COND_WAIT) lg'.
Proof.
  apply (wait_failure_keeps_lock
           (World 7 0 (Obj false 0 false) [succeeds; answers EINVAL] [])
           succeeds (answers EINVAL) [] []).
  - reflexivity.
  - reflexivity.
  - cbn. discriminate.
  - cbn. repeat split.
Defined.

(** X11. signal() and broadcast() whose native wake-up call fails throw the
    system error with the flags already written and the embedded mutex
    still locked: the lock and the failed call are the native calls
    issued. *)
Theorem signal_failure_keeps_lock (w : world obj) (lockr sigr : reply obj)
  (rest : list (reply obj)) :
  script w = lockr :: sigr :: rest ->
  ret_code lockr = 0 -> ret_code sigr <> 0 ->
  let c := meanwhile lockr (this w) in
  let set := fun b =>
    Obj (negb (waiting_thread_count c =? 0)) (waiting_thread_count c) b in
  signal w =
    Throw (system_error "pthread_cond_signal" (ret_code sigr))
          (World (self w) (errno w) (set false) rest
                 (log w ++ [(PTHREAD_MUTEX_LOCK, this w);
                            (PTHREAD_COND_SIGNAL, set false)])) /\
  broadcast w =
    Throw (system_error "pthread_cond_broadcast" (ret_code sigr))
          (World (self w) (errno w) (set true) rest
                 (log w ++ [(PTHREAD_MUTEX_LOCK, this w);
                            (PTHREAD_COND_BROADCAST, set true)])).
Proof.
  intros Hsc Hl Hg c set.
  destruct w as [me e c0 sc lg]. cbn [self errno this script log] in *.
  subst sc. split.
  - unfold signal. run. rewrite Hl. cbn. rewrite (eqb_code_false _ Hg). cbn.
    rewrite <- !app_assoc. reflexivity.
  - unfold broadcast. run. rewrite Hl. cbn. rewrite (eqb_code_false _ Hg).
    cbn. rewrite <- !app_assoc. reflexivity.
Qed.

Lemma signal_failure_keeps_lock_witness :
  signal (World 7 0 (Obj false 2 true) [succeeds; answers EINVAL] []) =
  Throw (system_error "pthread_cond_signal" EINVAL)
        (World 7 0 (Obj true 2 false) []
               [(PTHREAD_MUTEX_LOCK, Obj false 2 true);
                (PTHREAD_COND_SIGNAL, Obj true 2 false)]).
Proof.
  destruct (signal_failure_keeps_lock
              (World 7 0 (Obj false 2 true) [succeeds; answers EINVAL] [])
              succeeds (answers EINVAL) []) as [H _].
  - reflexivity.
  - reflexivity.
  - cbn. discriminate.
  - exact H.
Defined.

(** X12. A signal raised while nobody waits is not kept: signal() returns false
    and leaves [signal_created] false, so a wait() that starts afterwards
    goes into pthread_cond_wait and is suspended there. *)
Theorem signal_without_waiter_is_lost (w : world obj) :
  waiting_thread_count (this w) = 0 ->
  script w = [succeeds; succeeds; succeeds; succeeds] ->
  let idle := Obj false 0 false in
  let waiting := Obj false 1 false in
  let w1 := World (self w) (errno w) idle [succeeds]
                  (log w ++ [(PTHREAD_MUTEX_LOCK, this w);
                             (PTHREAD_COND_SIGNAL, idle);
                             (PTHREAD_MUTEX_UNLOCK, idle)]) in
  signal w = Return false w1 /\
  wait w1 =
  Suspended (World (self w) (errno w) waiting []
                   (log w1 ++ [(PTHREAD_MUTEX_LOCK, idle);
                               (PTHREAD_COND_WAIT, waiting)])).
Proof.
  intros Hc Hsc idle waiting w1.
  destruct w as [me e [s n b] sc lg].
  cbn [self errno this script log waiting_thread_count] in *.
  subst sc n w1. split.
  - unfold signal. run. cbn. rewrite <- !app_assoc. reflexivity.
  - unfold wait, waiting_thread_count_incr. cbn [script length while]. run.
    cbn. rewrite <- !app_assoc. reflexivity.
Qed.

Lemma signal_without_waiter_is_lost_witness :
  signal (World 7 0 Condition [succeeds; succeeds; succeeds; succeeds] []) =
  Return false
         (World 7 0 Condition [succeeds]
                [(PTHREAD_MUTEX_LOCK, Condition);
                 (PTHREAD_COND_SIGNAL, Condition);
                 (PTHREAD_MUTEX_UNLOCK, Condition)]).
Proof.
  destruct (signal_without_waiter_is_lost
              (World 7 0 Condition
                     [succeeds; succeeds; succeeds; succeeds] []))
    as [H _]; [reflexivity | reflexivity | exact H].
Defined.

End ConditionTimed.

(** ** Semaphore: the permits are accounted for *)

Module SemaphoreAccounting.
Import Semaphore.
Import SemaphoreSpec.

Lemma holding_lookup (s : obj) (t : pthread_t) :
  holding s !! t = if holds s t then Some true else None.
Proof.
  unfold holding, holds.
  destruct (locking_threads s !! t) as [[|]|] eqn:E; cbn.
  - apply map_lookup_filter_Some. split; [exact E | reflexivity].
  - apply map_lookup_filter_None. right. intros x Hx.
    rewrite E in Hx. injection Hx as <-. cbn. discriminate.
  - apply map_lookup_filter_None. left. exact E.
Qed.

Lemma holders_insert_true (s : obj) (t : pthread_t) (n c q : Z) :
  holds s t = false ->
  holders (Obj n (<[t := true]> (locking_threads s)) (max_value s) c q)
  = holders s + 1.
Proof.
  intros Hh. unfold holders, holding. cbn [locking_threads].
  rewrite map_filter_insert_True by reflexivity.
  rewrite map_size_insert_None.
  - lia.
  - pose proof (holding_lookup s t) as H. rewrite Hh in H. exact H.
Qed.

Lemma holders_insert_false (s : obj) (t : pthread_t) (n c q : Z) :
  holders (Obj n (<[t := false]> (locking_threads s)) (max_value s) c q)
  = holders s - (if holds s t then 1 else 0).
Proof.
  unfold holders, holding. cbn [locking_threads].
  rewrite map_filter_insert_False by (cbn; discriminate).
  rewrite map_filter_delete, map_size_delete.
  pose proof (holding_lookup s t) as H. unfold holding in H. rewrite H.
  destruct (holds s t) eqn:Hh.
  - assert (Hpos : (0 < size (filter (fun kv : pthread_t * bool => kv.2 = true)
                                      (locking_threads s)))%nat).
    { destruct (size _) eqn:Hz; [|lia].
      apply map_size_empty_inv in Hz. rewrite Hz in H.
      rewrite lookup_empty in H. discriminate. }
    lia.
  - cbn. lia.
Qed.

Lemma accounted_touched (s : obj) (t : pthread_t) :
  accounted s -> accounted (touched t s).
Proof.
  unfold touched. destruct (locking_threads s !! t) eqn:E; [trivial|].
  unfold accounted, set_locking_threads. cbn [sem max_value].
  intros [H0 H1]. split; [exact H0|].
  rewrite holders_insert_false.
  unfold holds. rewrite E. cbn. lia.
Qed.

Lemma accounted_fields (s s' : obj) :
  accounted s -> sem s' = sem s ->
  locking_threads s' = locking_threads s -> max_value s' = max_value s ->
  accounted s'.
Proof.
  destruct s, s'. unfold accounted, holders, holding. cbn.
  intros H -> -> ->. exact H.
Qed.

Lemma accounted_take (s s' : obj) (t : pthread_t) :
  accounted s -> holds s t = false -> 0 < sem s ->
  sem s' = sem s - 1 ->
  locking_threads s' = <[t := true]> (locking_threads s) ->
  max_value s' = max_value s ->
  accounted s'.
Proof.
  intros [H0 H1] Hh Hs Hsem Hmap Hmax.
  apply (accounted_fields
           (Obj (sem s - 1) (<[t := true]> (locking_threads s))
                (max_value s) 0 0)); try assumption.
  unfold accounted. cbn [sem max_value].
  rewrite holders_insert_true by exact Hh. lia.
Qed.

Lemma accounted_give (s s' : obj) (t : pthread_t) :
  accounted s -> holds s t = true ->
  sem s' = sem s + 1 ->
  locking_threads s' = <[t := false]> (locking_threads s) ->
  max_value s' = max_value s ->
  accounted s'.
Proof.
  intros [H0 H1] Hh Hsem Hmap Hmax.
  apply (accounted_fields
           (Obj (sem s + 1) (<[t := false]> (locking_threads s))
                (max_value s) 0 0)); try assumption.
  unfold accounted. cbn [sem max_value].
  rewrite holders_insert_false, Hh. lia.
Qed.

Ltac acc_same := eapply accounted_fields; [eassumption | reflexivity ..].
Ltac acc_take :=
  eapply accounted_take;
  [eassumption | eassumption | apply Z.ltb_lt; eassumption | reflexivity ..].
Ltac acc_give :=
  eapply accounted_give; [eassumption | eassumption | reflexivity ..].

Ltac fields :=
  cbn [fields_after this sem locking_threads max_value current_value
       thread_queue set_sem set_locking_threads set_current_value
       set_thread_queue].

(** The ways through the five methods, with what is to be shown where the
    fields are untouched but for the map entry read ([rest]), where only the
    counters have moved ([same]), where a permit was taken ([take]) and
    where one was given back ([give]). *)
Ltac walk m s me sc rest same take give :=
  destruct m as [| |?time| |]; unfold call;
  [ unfold wait; enter;
    destruct (holds s me) eqn:?E; [rest|];
    body; destruct sc as [|?r ?rs]; [fields; same|];
    destruct (ret_code r =? 0); cbn -[uint]; fields; [|same];
    destruct (0 <? sem (touched me s)) eqn:?Es; cbn -[uint]; fields;
    [take | same]
  | unfold trywait; enter;
    destruct (holds s me) eqn:?E; [rest|];
    body; destruct sc as [|?r ?rs]; [fields; same|];
    destruct (ret_code r =? 0); cbn -[uint]; fields;
    [ destruct (0 <? sem (touched me s)) eqn:?Es; cbn -[uint]; fields;
      [take | same]
    | destruct (err r =? EAGAIN); cbn -[uint]; fields; same ]
  | unfold timedwait; enter;
    destruct (holds s me) eqn:?E; [rest|];
    body; destruct (_ || _); [rest|]; run;
    destruct sc as [|?now ?rs]; [rest|];
    destruct (ret_code now =? 0) eqn:?En; cbn -[uint];
    [|rewrite En; cbn; rest];
    destruct (NSEC_PER_SEC <=? _); cbn -[uint];
    (destruct rs as [|?r ?rs']; [fields; same|]);
    (destruct (ret_code r =? 0); cbn -[uint]; fields;
     [ destruct (0 <? sem (touched me s)) eqn:?Es; cbn -[uint]; fields;
       [take | same]
     | destruct (err r =? ETIMEDOUT); cbn -[uint]; fields; same ])
  | unfold part_008.post; enter;
    destruct (holds s me) eqn:?E; cbn [negb]; [|rest];
    body; destruct sc as [|?r ?rs]; [rest|];
    destruct (ret_code r =? 0); cbn -[uint]; fields; [|rest];
    destruct (SEM_VALUE_MAX <=? sem (touched me s)); cbn -[uint]; fields;
    [rest | give]
  | unfold Semaphore_cpp.post; enter;
    destruct (holds s me) eqn:?E; cbn [negb]; [|rest];
    body; destruct sc as [|?r ?rs]; [rest|];
    destruct (ret_code r =? 0); cbn -[uint]; fields; [|rest];
    destruct (SEM_VALUE_MAX <=? sem (touched me s)); cbn -[uint]; fields;
    [rest | give] ].

(** Every call keeps the account, however it ends. *)
Lemma call_accounted (m : method) (w : world obj) :
  accounted (this w) -> accounted (call m w).
Proof.
  destruct w as [me e s sc lg]. cbn [this]. intros Ha.
  pose proof (accounted_touched s me Ha) as Ht. clear Ha.
  pose proof (holds_touched me me s) as Hh.
  walk m s me sc ltac:(exact Ht) ltac:(acc_same) ltac:(acc_take)
       ltac:(acc_give).
Qed.

(** No call writes [max_value]. *)
Lemma call_max_value (m : method) (w : world obj) :
  max_value (call m w) = max_value (this w).
Proof.
  destruct w as [me e s sc lg]. cbn [this].
  destruct (touched_fields me s) as (_ & Hm & _).
  walk m s me sc ltac:(exact Hm) ltac:(exact Hm) ltac:(exact Hm)
       ltac:(exact Hm).
Qed.

Lemma holders_range (s : obj) : accounted s -> 0 <= holders s <= max_value s.
Proof. unfold accounted, holders. lia. Qed.

(** X13. On every semaphore that comes about from a successful construction with
    [value], the count of the native semaphore and the number of threads
    with a true entry add up to [value], which is still [max_value]: never
    do more than [value] threads hold the semaphore. *)
Theorem capacity_bound (value : Z) (s : obj) :
  0 <= value -> reachable value s ->
  max_value s = value /\ sem s + holders s = value /\
  0 <= holders s <= value.
Proof.
  intros Hv Hr.
  assert (H : accounted s /\ max_value s = value).
  { induction Hr as [w w' Hnew | s m t e sc lg Hr IH].
    - destruct w as [me e raw sc lg]. revert Hnew.
      unfold part_008.Semaphore. body.
      destruct (value =? 0); [discriminate|].
      cbv beta iota. cbn [script log this self errno tail].
      destruct sc as [|r rest]; [discriminate|].
      destruct (ret_code r =? 0); cbn; [|discriminate].
      destruct (SEM_VALUE_MAX <? value); cbn; [discriminate|].
      intros [= <-]. cbn. split; [|reflexivity].
      unfold accounted, holders, holding. cbn.
      rewrite map_filter_empty, map_size_empty. lia.
    - destruct IH as [Ha Hm]. split.
      + apply call_accounted. exact Ha.
      + rewrite call_max_value. exact Hm. }
  destruct H as [Ha Hm]. pose proof (holders_range s Ha) as Hh.
  destruct Ha as [H0 H1]. rewrite Hm in *. auto.
Qed.

(** Semaphore(2), then wait by thread 7 and wait by thread 8. *)
Lemma capacity_bound_witness :
  let s0 := Obj 2 ∅ 2 0 0 in
  let s1 := call Wait (World 7 0 s0 [succeeds] []) in
  let s2 := call Wait (World 8 0 s1 [succeeds] []) in
  max_value s2 = 2 /\ sem s2 + holders s2 = 2 /\ 0 <= holders s2 <= 2.
Proof.
  cbv zeta. apply capacity_bound; [lia|].
  apply reach_call. apply reach_call.
  apply (reach_new 2 (World 7 0 (Obj 0 ∅ 0 0 0) [succeeds] [])
                   (World 7 0 (Obj 2 ∅ 2 0 0) []
                          [(SEM_INIT, Obj 0 ∅ 2 0 0)])).
  reflexivity.
Defined.

(** X14. The two versions of post on one and the same world: they end the same
    way, and when they return they differ in [current_value] alone, which
    part_008 has lowered and src/Semaphore.cpp has raised. *)
Theorem post_versions_differ_in_current_value (w : world obj) :
  post_versions_relate w (Semaphore_cpp.post w) (part_008.post w).
Proof.
  destruct w as [me e s sc lg].
  unfold post_versions_relate, Semaphore_cpp.post, part_008.post,
    locking_threads_at.
  body.
  destruct (locking_threads s !! me) as [[|]|]; cbn -[uint];
    try (split; reflexivity).
  destruct sc as [|r rest]; [reflexivity|].
  destruct (ret_code r =? 0); cbn -[uint]; [|split; reflexivity].
  destruct (SEM_VALUE_MAX <=? sem s); cbn -[uint]; split; reflexivity.
Qed.

(** X15. wait followed by the post of part_008, by a thread that does not hold
    the semaphore, with a permit free and both native calls succeeding: the
    native count, [max_value] and every thread's holding are as before, and
    [current_value] and [thread_queue] are back at their values (modulo
    2^32). *)
Theorem wait_post_round_trip (w : world obj) (r1 r2 : reply obj)
  (rest : list (reply obj)) :
  holds (this w) (self w) = false ->
  0 < sem (this w) <= SEM_VALUE_MAX ->
  script w = r1 :: r2 :: rest -> ret_code r1 = 0 -> ret_code r2 = 0 ->
  exists w',
    (wait ;; part_008.post) w = Return tt w' /\
    script w' = rest /\
    sem (this w') = sem (this w) /\
    max_value (this w') = max_value (this w) /\
    current_value (this w') = uint (current_value (this w)) /\
    thread_queue (this w') = uint (thread_queue (this w)) /\
    forall caller, holds (this w') caller = holds (this w) caller.
Proof.
  destruct w as [me e s sc lg]. cbn [self errno this script log].
  intros Hh [Hs0 Hs1] -> H1 H2.
  destruct (touched_fields me s) as (Hsem & Hm & Hc & Hq).
  assert (Hw : wait (World me e s (r1 :: r2 :: rest) lg) =
               Return tt
                 (World me e
                    (Obj (sem s - 1)
                         (<[me := true]> (locking_threads (touched me s)))
                         (max_value s)
                         (uint (current_value s + 1))
                         (uint (thread_queue s)))
                    (r2 :: rest)
                    (lg ++ [(SEM_WAIT,
                             set_thread_queue (uint (thread_queue s + 1))
                                              (touched me s))]))).
  { unfold wait. enter. rewrite Hh. body. rewrite H1. cbn -[uint].
    rewrite Hsem. apply Z.ltb_lt in Hs0. rewrite Hs0. cbn -[uint].
    unfold set_locking_threads, set_thread_queue, set_current_value, set_sem.
    cbn -[uint]. rewrite Hq, Hc, Hm, Hsem, uint_incr_decr. reflexivity. }
  eexists. split.
  { erewrite bind_step by exact Hw.
    unfold part_008.post. enter.
    unfold holds at 1. cbn [locking_threads].
    rewrite lookup_insert_eq. cbn [default negb].
    unfold touched at 1. cbn [locking_threads].
    rewrite lookup_insert_eq.
    body. cbn -[uint]. rewrite H2. cbn -[uint].
    destruct (SEM_VALUE_MAX <=? sem s - 1) eqn:E;
      [apply Z.leb_le in E; lia|].
    cbn -[uint]. reflexivity. }
  cbn [this script sem max_value current_value thread_queue
       set_sem set_current_value set_locking_threads].
  repeat split.
  - lia.
  - unfold uint. rewrite Zminus_mod_idemp_l. f_equal. lia.
  - intros caller. unfold holds. cbn [this locking_threads set_locking_threads].
    rewrite insert_insert_eq.
    destruct (decide (me = caller)) as [<-|Hne].
    + rewrite lookup_insert_eq. symmetry. exact Hh.
    + rewrite lookup_insert_ne by exact Hne.
      apply (holds_touched me caller s).
Qed.

Lemma wait_post_round_trip_witness :
  exists w',
    (wait ;; part_008.post)
      (World 7 0 (Obj 1 {[8 := true]} 2 1 0) [succeeds; succeeds] []) =
    Return tt w' /\
    sem (this w') = 1 /\ current_value (this w') = 1 /\
    holds (this w') 8 = true /\ holds (this w') 7 = false.
Proof.
  destruct (wait_post_round_trip
              (World 7 0 (Obj 1 {[8 := true]} 2 1 0) [succeeds; succeeds] [])
              succeeds succeeds [])
    as (w' & Hw & _ & Hs & _ & Hc & _ & Hh).
  - reflexivity.
  - cbn. unfold SEM_VALUE_MAX. lia.
  - reflexivity.
  - reflexivity.
  - reflexivity.
  - exists w'. split; [exact Hw|]. split; [exact Hs|]. split; [exact Hc|].
    split; [rewrite Hh | rewrite Hh]; reflexivity.
Defined.

(** X16. Once wait has succeeded, the caller holds the semaphore, and its next
    wait, trywait or timedwait throws DoubleAcquire without a native call
    and without touching a field. *)
Theorem second_wait_is_double (w : world obj) (r : reply obj)
  (rest : list (reply obj)) (time : timespec) :
  holds (this w) (self w) = false -> 0 < sem (this w) ->
  script w = r :: rest -> ret_code r = 0 ->
  exists w1,
    wait w = Return tt w1 /\
    holds (this w1) (self w) = true /\
    wait w1 = Throw DoubleAcquire w1 /\
    trywait w1 = Throw DoubleAcquire w1 /\
    timedwait time w1 = Throw DoubleAcquire w1.
Proof.
  destruct w as [me e s sc lg]. cbn [self errno this script log].
  intros Hh Hs -> Hr.
  destruct (touched_fields me s) as (Hsem & _).
  eexists. split.
  { unfold wait. enter. rewrite Hh. body. rewrite Hr. cbn -[uint].
    rewrite Hsem. apply Z.ltb_lt in Hs. rewrite Hs. cbn -[uint].
    unfold set_locking_threads, set_thread_queue, set_current_value, set_sem.
    cbn -[uint]. reflexivity. }
  assert (Hheld : forall q c n mx m,
            holds (Obj n (<[me := true]> m) mx c q) me = true).
  { intros. unfold holds. cbn. rewrite lookup_insert_eq. reflexivity. }
  split; [apply Hheld|].
  repeat split; unfold wait, trywait, timedwait; enter;
    rewrite Hheld, (touched_held _ _ (Hheld _ _ _ _ _)); reflexivity.
Qed.

Lemma second_wait_is_double_witness :
  exists w1,
    wait (World 7 0 (Obj 2 ∅ 2 0 0) [succeeds] []) = Return tt w1 /\
    trywait w1 = Throw DoubleAcquire w1.
Proof.
  destruct (second_wait_is_double
              (World 7 0 (Obj 2 ∅ 2 0 0) [succeeds] []) succeeds []
              (Timespec 0 0))
    as (w1 & Hw & _ & _ & Ht & _);
    [reflexivity | cbn; lia | reflexivity | reflexivity |].
  exists w1. split; assumption.
Defined.

End SemaphoreAccounting.

(** ** RW_Lock: the locking methods *)

Module RW_LockAcquire.
Import RW_Lock.

Ltac rw :=
  unfold rd_lock, wr_lock, rd_trylock, wr_trylock, rd_timedlock, wr_timedlock,
    unlock, is_locked, read_locked_incr, pthread_rwlock_rdlock,
    pthread_rwlock_wrlock, pthread_rwlock_tryrdlock, pthread_rwlock_trywrlock,
    pthread_rwlock_timedrdlock, pthread_rwlock_timedwrlock, native_code,
    pthread_timeout;
  run.



(** X18. rd_lock followed by unlock, and wr_lock followed by unlock, on a lock
    no writer holds and with the native calls succeeding, bring the fields
    back to what they were; the unlock may come from any thread, the caller
    is not looked at. *)
Theorem rw_lock_unlock_round_trip (w : world obj) (r1 r2 : reply obj)
  (rest : list (reply obj)) (other : pthread_t) :
  write_locked (this w) = false ->
  0 <= read_locked (this w) < 2 ^ 64 - 1 ->
  script w = r1 :: r2 :: rest -> ret_code r1 = 0 -> ret_code r2 = 0 ->
  let back :=
    World other (errno w) (this w) rest
          (log w ++ [(PTHREAD_RWLOCK_UNLOCK, this w)]) in
  (exists w1,
     rd_lock w = Return tt w1 /\
     this w1 = reader_more (this w) /\
     unlock (as_thread other w1) = Return tt back) /\
  (exists w1,
     wr_lock w = Return tt w1 /\
     this w1 = set_write_locked true (this w) /\
     unlock (as_thread other w1) = Return tt back).
Proof.
  intros Hw Hn Hsc H1 H2 back. subst back.
  destruct w as [me e [n b] sc lg].
  cbn [self errno this script log read_locked write_locked] in *.
  subst sc b.
  assert (Hinc : size_t (n + 1) = n + 1) by (apply Z.mod_small; lia).
  assert (Hdec : size_t (n + 1 - 1) = n)
    by (replace (n + 1 - 1) with n by lia; apply Z.mod_small; lia).
  split; eexists.
  - split; [rw; rewrite H1; reflexivity|]. split; [reflexivity|].
    unfold as_thread, reader_more. rw.
    cbn [read_locked write_locked set_read_locked].
    rewrite Hinc.
    destruct (n + 1 =? 0) eqn:E; [apply Z.eqb_eq in E; lia|]. cbn.
    rewrite H2. cbn. unfold set_read_locked. cbn. rewrite Hdec. reflexivity.
  - split; [rw; rewrite H1; reflexivity|]. split; [reflexivity|].
    unfold as_thread. rw. cbn [read_locked write_locked set_write_locked].
    rewrite orb_true_r. cbn. rewrite H2. reflexivity.
Qed.

Lemma rw_lock_unlock_round_trip_witness :
  exists w1,
    rd_lock (World 7 0 (Obj 2 false) [succeeds; succeeds] []) = Return tt w1 /\
    this w1 = Obj 3 false /\
    unlock (as_thread 8 w1) =
    Return tt (World 8 0 (Obj 2 false) []
                     [(PTHREAD_RWLOCK_UNLOCK, Obj 2 false)]).
Proof.
  destruct (rw_lock_unlock_round_trip
              (World 7 0 (Obj 2 false) [succeeds; succeeds] [])
              succeeds succeeds [] 8) as [H _].
  - reflexivity.
  - cbn. lia.
  - reflexivity.
  - reflexivity.
  - reflexivity.
  - exact H.
Defined.

Lemma rd_lock_times (k : nat) :
  forall (w : world obj) (locks rest : list (reply obj)),
    0 <= read_locked (this w) < 2 ^ 64 ->
    script w = locks ++ rest -> length locks = k ->
    Forall (fun r => ret_code r = 0) locks ->
    times k rd_lock w =
    Return tt
      (World (self w) (errno w)
             (Obj (size_t (read_locked (this w) + Z.of_nat k))
                  (write_locked (this w)))
             rest (log w)).
Proof.
  induction k as [|k IH]; intros w locks rest Hn Hsc Hlen Hall.
  - destruct locks; [|discriminate]. destruct w as [me e [n b] sc lg].
    cbn in *. subst sc. unfold ret. rewrite Z.add_0_r.
    unfold size_t. rewrite Z.mod_small by exact Hn. reflexivity.
  - destruct locks as [|r locks]; [discriminate|].
    inversion Hall as [|? ? Hr Hall']; subst.
    destruct w as [me e [n b] sc lg].
    cbn [self errno this script log read_locked write_locked] in *.
    subst sc. injection Hlen as Hlen.
    cbn [times]. erewrite bind_step.
    2:{ rw. cbn. rewrite Hr. reflexivity. }
    rewrite (IH _ locks rest); [| | reflexivity | exact Hlen | exact Hall'].
    + cbn [self errno this log read_locked write_locked set_read_locked].
      f_equal. f_equal. f_equal.
      unfold size_t. rewrite Zplus_mod_idemp_l. f_equal. lia.
    + cbn. apply Z.mod_pos_bound. lia.
Qed.

Lemma unlock_times (k : nat) :
  forall (w : world obj) (unlocks rest : list (reply obj)),
    write_locked (this w) = false ->
    Z.of_nat k <= read_locked (this w) < 2 ^ 64 ->
    script w = unlocks ++ rest -> length unlocks = k ->
    Forall (fun r => ret_code r = 0) unlocks ->
    exists lg',
      times k unlock w =
      Return tt
        (World (self w) (errno w)
               (Obj (read_locked (this w) - Z.of_nat k) false) rest lg').
Proof.
  induction k as [|k IH]; intros w unlocks rest Hw Hn Hsc Hlen Hall.
  - destruct unlocks; [|discriminate]. destruct w as [me e [n b] sc lg].
    cbn in *. subst sc b. unfold ret. rewrite Z.sub_0_r. eauto.
  - destruct unlocks as [|r unlocks]; [discriminate|].
    inversion Hall as [|? ? Hr Hall']; subst.
    destruct w as [me e [n b] sc lg].
    cbn [self errno this script log read_locked write_locked] in *.
    subst sc b. injection Hlen as Hlen.
    assert (Hdec : size_t (n - 1) = n - 1) by (apply Z.mod_small; lia).
    cbn [times]. erewrite bind_step.
    2:{ rw. cbn [read_locked write_locked].
        destruct (n =? 0) eqn:E; [apply Z.eqb_eq in E; lia|]. cbn.
        rewrite Hr. cbn. unfold set_read_locked. cbn. rewrite Hdec.
        reflexivity. }
    destruct (IH (World me e (Obj (n - 1) false) (unlocks ++ rest)
                        (lg ++ [(PTHREAD_RWLOCK_UNLOCK, Obj (n - 1) false)]))
                 unlocks rest) as [lg' Hk];
      [reflexivity | cbn; lia | reflexivity | exact Hlen | exact Hall' |].
    exists lg'. rewrite Hk. cbn [self errno this read_locked].
    f_equal. f_equal. f_equal. lia.
Qed.

(** X19. Read locks nest and are counted: [k] calls of rd_lock in a row by one
    thread, the native calls succeeding, raise [read_locked] by [k], none of
    them being refused, and [k] calls of unlock bring the fields back to
    what they were. *)
Theorem nested_read_locks (k : nat) (w : world obj)
  (locks unlocks rest : list (reply obj)) :
  write_locked (this w) = false ->
  0 <= read_locked (this w) -> read_locked (this w) + Z.of_nat k < 2 ^ 64 ->
  script w = locks ++ unlocks ++ rest ->
  length locks = k -> length unlocks = k ->
  Forall (fun r => ret_code r = 0) locks ->
  Forall (fun r => ret_code r = 0) unlocks ->
  exists w1 lg',
    times k rd_lock w = Return tt w1 /\
    read_locked (this w1) = read_locked (this w) + Z.of_nat k /\
    times k unlock w1 =
    Return tt (World (self w) (errno w) (this w) rest lg').
Proof.
  intros Hw H0 Hk Hsc Hl Hu Hal Hau.
  pose proof (rd_lock_times k w locks (unlocks ++ rest)) as H1.
  rewrite H1; [|lia|exact Hsc|exact Hl|exact Hal].
  assert (Hs : size_t (read_locked (this w) + Z.of_nat k)
               = read_locked (this w) + Z.of_nat k)
    by (apply Z.mod_small; lia).
  rewrite Hs, Hw.
  destruct (unlock_times k
              (World (self w) (errno w)
                     (Obj (read_locked (this w) + Z.of_nat k) false)
                     (unlocks ++ rest) (log w)) unlocks rest)
    as [lg' H2]; [reflexivity | cbn; lia | reflexivity | exact Hu | exact Hau |].
  eexists. exists lg'. split; [reflexivity|]. split; [reflexivity|].
  rewrite H2. cbn [self errno this read_locked].
  f_equal. f_equal. destruct w as [me e [n b] sc lg]. cbn in *. subst b.
  f_equal. lia.
Qed.

Lemma nested_read_locks_witness :
  exists w1 lg',
    times 3 rd_lock
      (World 7 0 RW_Lock
             [succeeds; succeeds; succeeds; succeeds; succeeds; succeeds] [])
    = Return tt w1 /\
    read_locked (this w1) = 3 /\
    times 3 unlock w1 = Return tt (World 7 0 RW_Lock [] lg').
Proof.
  destruct (nested_read_locks 3
              (World 7 0 RW_Lock
                 [succeeds; succeeds; succeeds; succeeds; succeeds; succeeds]
                 [])
              [succeeds; succeeds; succeeds] [succeeds; succeeds; succeeds] [])
    as (w1 & lg' & H1 & H2 & H3).
  - reflexivity.
  - cbn. lia.
  - cbn. lia.
  - reflexivity.
  - reflexivity.
  - reflexivity.
  - repeat constructor.
  - repeat constructor.
  - exists w1, lg'. split; [exact H1|]. split; [exact H2 | exact H3].
Defined.

End RW_LockAcquire.

(** ** Thread: the life of a thread object *)

Module ThreadLifecycle.
Import Thread.

Ltac life :=
  unfold Thread.Thread, Thread_detachstate, start, detach, cancel, kill,
    send_signal, join, try_join, timed_join, join_call, pthread_attr_init,
    pthread_attr_setdetachstate, pthread_create, pthread_detach,
    pthread_cancel, pthread_kill, native_code;
  run.

(** X20. On a thread object that is not running, detach, cancel, send_signal and
    kill do not reach the operating system: cancel throws std::logic_error,
    send_signal and kill throw std::runtime_error, detach throws
    std::logic_error, with the text for a detached thread when the object
    is detached; the world is as it was. *)
Theorem not_running_errors (w : world obj) (signum : Z) :
  running (this w) = false ->
  cancel w = Throw (logic_error CANCEL_STOPPED) w /\
  send_signal signum w = Throw (runtime_error SIGNAL_STOPPED) w /\
  kill signum w = Throw (runtime_error SIGNAL_STOPPED) w /\
  detach w =
  Throw (logic_error (match detachstate (this w) with
                      | DETACHED => DETACH_DETACHED
                      | JOINABLE => DETACH_STOPPED
                      end)) w.
Proof.
  destruct w as [me e [id r d] sc lg]. cbn [this running detachstate].
  intros ->.
  split; [reflexivity|]. split; [reflexivity|]. split; [reflexivity|].
  destruct d; reflexivity.
Qed.

Lemma not_running_errors_witness :
  send_signal 15 (World 7 0 (Obj 0 false JOINABLE) [succeeds] []) =
  Throw (runtime_error SIGNAL_STOPPED)
        (World 7 0 (Obj 0 false JOINABLE) [succeeds] []).
Proof.
  destruct (not_running_errors
              (World 7 0 (Obj 0 false JOINABLE) [succeeds] []) 15 eq_refl)
    as (_ & H & _).
  exact H.
Defined.

(** X21. A native call that fails in detach, cancel or send_signal on a running
    thread throws the system error with the name of the call and its code,
    and leaves the fields as they were: the thread still counts as running
    and, for detach, as joinable. *)
Theorem native_failure_keeps_fields (w : world obj) (signum : Z)
  (r : reply obj) (rest : list (reply obj)) :
  running (this w) = true -> script w = r :: rest -> ret_code r <> 0 ->
  let w' := World (self w) (errno w) (this w) rest (log w) in
  cancel w = Throw (system_error "pthread_cancel" (ret_code r)) w' /\
  send_signal signum w = Throw (system_error "pthread_kill" (ret_code r)) w' /\
  (detachstate (this w) = JOINABLE ->
   detach w = Throw (system_error "pthread_detach" (ret_code r)) w').
Proof.
  destruct w as [me e [id b d] sc lg].
  cbn [self errno this script log running detachstate].
  intros -> -> Hr. cbn zeta.
  split; [|split; [|intros ->]]; life; cbn;
    rewrite (eqb_code_false _ Hr); reflexivity.
Qed.

Lemma native_failure_keeps_fields_witness :
  cancel (World 7 0 (Obj 9 true JOINABLE) [answers 3] []) =
  Throw (system_error "pthread_cancel" 3)
        (World 7 0 (Obj 9 true JOINABLE) [] []).
Proof.
  destruct (native_failure_keeps_fields
              (World 7 0 (Obj 9 true JOINABLE) [answers 3] []) 0
              (answers 3) [] eq_refl eq_refl) as [H _].
  - cbn. lia.
  - exact H.
Defined.

(** X22. A native join that fails on a running joinable thread: join throws the
    system error of pthread_join, try_join that of pthread_tryjoin_np unless
    the code is EBUSY, and [running] stays set, so that the join can be
    tried again. *)
Theorem join_failure_keeps_running (w : world obj) (rv : bool)
  (r : reply obj) (rest : list (reply obj)) :
  detachstate (this w) = JOINABLE -> running (this w) = true ->
  script w = r :: rest -> ret_code r <> 0 ->
  let went := fun c : native =>
    World (self w) (errno w) (this w) rest (log w ++ [(c, this w)]) in
  join rv w =
    Throw (system_error "pthread_join" (ret_code r)) (went PTHREAD_JOIN) /\
  (ret_code r <> EBUSY ->
   try_join rv w =
     Throw (system_error "pthread_tryjoin_np" (ret_code r))
           (went PTHREAD_TRYJOIN_NP)).
Proof.
  destruct w as [me e [id b d] sc lg].
  cbn [self errno this script log running detachstate].
  intros -> -> -> Hr. cbn zeta. split; [|intros Hb]; life; cbn;
    rewrite (eqb_code_false _ Hr); cbn; [reflexivity|].
  destruct (ret_code r =? EBUSY) eqn:E; [apply Z.eqb_eq in E; tauto|].
  reflexivity.
Qed.

Lemma join_failure_keeps_running_witness :
  join true (World 7 0 (Obj 9 true JOINABLE) [answers 3] []) =
  Throw (system_error "pthread_join" 3)
        (World 7 0 (Obj 9 true JOINABLE) []
               [(PTHREAD_JOIN, Obj 9 true JOINABLE)]).
Proof.
  destruct (join_failure_keeps_running
              (World 7 0 (Obj 9 true JOINABLE) [answers 3] []) true
              (answers 3) [] eq_refl eq_refl eq_refl) as [H _].
  - cbn. lia.
  - exact H.
Defined.

(** X23. timed_join on a running joinable thread.  A time with a negative part or
    with a billion nanoseconds or more is refused with std::invalid_argument
    before any native call.  With a valid time and the clock read, a native
    answer other than success and ETIMEDOUT is thrown as a system error that
    names pthread_tryjoin_np, although the call made was
    pthread_timedjoin_np; [running] stays set. *)
Theorem timed_join_errors (w : world obj) (rv : bool) (time : timespec) :
  detachstate (this w) = JOINABLE -> running (this w) = true ->
  (tv_sec time < 0 \/ tv_nsec time < 0 \/ NSEC_PER_SEC <= tv_nsec time ->
   timed_join time rv w = Throw (invalid_argument "invalid timespec") w) /\
  (valid time -> forall now r rest,
   script w = now :: r :: rest -> ret_code now = 0 ->
   ret_code r <> 0 -> ret_code r <> ETIMEDOUT ->
   timed_join time rv w =
   Throw (system_error "pthread_tryjoin_np" (ret_code r))
         (World (self w) (errno w) (this w) rest
                (log w ++ [(GETTIMEOFDAY, this w);
                           (PTHREAD_TIMEDJOIN_NP, this w)]))).
Proof.
  destruct w as [me e [id b d] sc lg].
  cbn [self errno this script log running detachstate].
  intros -> ->. split.
  - intros H. life. cbn.
    assert (Hc : (tv_sec time <? 0) || (tv_nsec time <? 0)
                 || (NSEC_PER_SEC <=? tv_nsec time) = true).
    { destruct H as [H|[H|H]].
      - apply Z.ltb_lt in H. rewrite H. reflexivity.
      - apply Z.ltb_lt in H. rewrite H. apply orb_true_iff. left.
        apply orb_true_r.
      - apply Z.leb_le in H. rewrite H. apply orb_true_r. }
    rewrite Hc. reflexivity.
  - intros Hv now r rest -> Hn Hr Ht. life. cbn.
    rewrite (valid_check _ Hv). cbn. rewrite Hn. cbn.
    rewrite (eqb_code_false _ Hr). cbn.
    destruct (ret_code r =? ETIMEDOUT) eqn:E; [apply Z.eqb_eq in E; tauto|].
    cbn. rewrite <- app_assoc. reflexivity.
Qed.

Lemma timed_join_errors_witness :
  timed_join (Timespec 1 1000000000) false
             (World 7 0 (Obj 9 true JOINABLE) [succeeds] []) =
  Throw (invalid_argument "invalid timespec")
        (World 7 0 (Obj 9 true JOINABLE) [succeeds] []).
Proof.
  destruct (timed_join_errors
              (World 7 0 (Obj 9 true JOINABLE) [succeeds] []) false
              (Timespec 1 1000000000) eq_refl eq_refl) as [H _].
  apply H. right. right. unfold NSEC_PER_SEC. cbn. lia.
Defined.

(** X24. start: on a running thread object it throws AlreadyStarted without
    a native call; otherwise it creates the thread and, when that succeeds,
    records the new id and sets [running]; when pthread_create fails it
    throws the system error and the object is still not running and has the
    [detachstate] of before, while [thread_id] holds whatever the failed
    call has left there. *)
Theorem start_outcomes (w : world obj) :
  (running (this w) = true ->
     start w = Throw (logic_error ALREADY_STARTED) w) /\
  (running (this w) = false -> forall r rest, script w = r :: rest ->
     (ret_code r = 0 ->
        start w =
        Return tt (World (self w) (errno w)
                         (Obj (exit_value r) true (detachstate (this w)))
                         rest (log w))) /\
     (ret_code r <> 0 ->
        start w =
        Throw (system_error "pthread_create" (ret_code r))
              (World (self w) (err r)
                     (Obj (exit_value r) false (detachstate (this w)))
                     rest (log w)))).
Proof.
  destruct w as [me e [id r d] sc lg].
  cbn [self errno this script log running detachstate].
  split.
  - intros ->. reflexivity.
  - intros -> a rest ->. split; intros Ha; life; cbn.
    + rewrite Ha. reflexivity.
    + rewrite (eqb_code_false _ Ha). reflexivity.
Qed.

(** A start that succeeds with the id 42, and one that fails with EAGAIN
    after the call has stored an id: the object is not running. *)
Lemma start_outcomes_witness :
  start (World 7 0 (Obj 0 false JOINABLE)
               [Reply 0 0 (Timeval 0 0) 42 (fun t => t)] []) =
  Return tt (World 7 0 (Obj 42 true JOINABLE) [] []) /\
  start (World 7 0 (Obj 0 false JOINABLE)
               [Reply EAGAIN 0 (Timeval 0 0) 42 (fun t => t)] []) =
  Throw (system_error "pthread_create" EAGAIN)
        (World 7 0 (Obj 42 false JOINABLE) [] []).
Proof.
  split.
  - destruct (start_outcomes
                (World 7 0 (Obj 0 false JOINABLE)
                       [Reply 0 0 (Timeval 0 0) 42 (fun t => t)] []))
      as [_ H].
    destruct (H eq_refl (Reply 0 0 (Timeval 0 0) 42 (fun t => t)) [] eq_refl)
      as [H' _].
    apply H'. reflexivity.
  - destruct (start_outcomes
                (World 7 0 (Obj 0 false JOINABLE)
                       [Reply EAGAIN 0 (Timeval 0 0) 42 (fun t => t)] []))
      as [_ H].
    destruct (H eq_refl (Reply EAGAIN 0 (Timeval 0 0) 42 (fun t => t)) []
                eq_refl) as [_ H'].
    apply H'. cbn. discriminate.
Defined.

(** X25. A thread object can be used again after a join: construction, start,
    join and a second start, the native calls succeeding, end with the
    object running the second thread and joinable. *)
Theorem restart_after_join (w : world obj) (r0 r1 r2 r3 : reply obj)
  (rest : list (reply obj)) (rv : bool) :
  script w = r0 :: r1 :: r2 :: r3 :: rest ->
  ret_code r0 = 0 -> ret_code r1 = 0 -> ret_code r2 = 0 -> ret_code r3 = 0 ->
  (Thread.Thread ;; start ;; v <- join rv ;; start ;; ret v) w =
  Return (if rv then Some (exit_value r2) else None)
         (World (self w) (errno w) (Obj (exit_value r3) true JOINABLE) rest
                (log w ++ [(PTHREAD_JOIN, Obj (exit_value r1) true JOINABLE)])).
Proof.
  destruct w as [me e t sc lg]. cbn [self errno this script log].
  intros -> H0 H1 H2 H3. life. cbn. rewrite H0. cbn. rewrite H1. cbn.
  rewrite H2. cbn. rewrite H3. cbn. rewrite andb_true_r. reflexivity.
Qed.

Lemma restart_after_join_witness :
  (Thread.Thread ;; start ;; v <- join false ;; start ;; ret v)
    (World 7 0 (Obj 5 true DETACHED)
           [succeeds; succeeds; succeeds; succeeds] []) =
  Return None
         (World 7 0 (Obj 0 true JOINABLE) []
                [(PTHREAD_JOIN, Obj 0 true JOINABLE)]).
Proof.
  apply (restart_after_join
           (World 7 0 (Obj 5 true DETACHED)
                  [succeeds; succeeds; succeeds; succeeds] [])
           succeeds succeeds succeeds succeeds [] false);
    reflexivity.
Defined.

(** X26. Detaching is final: no method takes [detachstate] back from DETACHED,
    however the call ends. *)
Theorem detached_is_final (w : world obj) (signum : Z) (rv : bool)
  (time : timespec) :
  detachstate (this w) = DETACHED ->
  detachstate (fields_after (start w)) = DETACHED /\
  detachstate (fields_after (detach w)) = DETACHED /\
  detachstate (fields_after (cancel w)) = DETACHED /\
  detachstate (fields_after (send_signal signum w)) = DETACHED /\
  detachstate (fields_after (join rv w)) = DETACHED /\
  detachstate (fields_after (try_join rv w)) = DETACHED /\
  detachstate (fields_after (timed_join time rv w)) = DETACHED.
Proof.
  destruct w as [me e [id r d] sc lg]. cbn [this detachstate].
  intros ->. repeat split; life; cbn;
    destruct r; cbn; try reflexivity;
    (destruct sc as [|a rest]; [reflexivity|]); cbn;
    destruct (ret_code a =? 0); reflexivity.
Qed.

Lemma detached_is_final_witness :
  detachstate
    (fields_after (cancel (World 7 0 (Obj 9 true DETACHED) [succeeds] [])))
  = DETACHED.
Proof.
  destruct (detached_is_final
              (World 7 0 (Obj 9 true DETACHED) [succeeds] []) 0 false
              (Timespec 0 0) eq_refl) as (_ & _ & H & _).
  exact H.
Defined.

(** X27. After start and detach have succeeded the thread can no longer be
    joined: each join method throws Detached and a second detach throws
    std::logic_error, none of them reaching the operating system, while the
    object still counts as running, so that start throws AlreadyStarted. *)
Theorem detached_thread_rejects_join (w : world obj) (r1 r2 : reply obj)
  (rest : list (reply obj)) (rv : bool) (time : timespec) :
  running (this w) = false -> detachstate (this w) = JOINABLE ->
  script w = r1 :: r2 :: rest -> ret_code r1 = 0 -> ret_code r2 = 0 ->
  let w2 := World (self w) (errno w) (Obj (exit_value r1) true DETACHED)
                  rest (log w) in
  (start ;; detach) w = Return tt w2 /\
  join rv w2 = Throw Detached w2 /\
  try_join rv w2 = Throw Detached w2 /\
  timed_join time rv w2 = Throw Detached w2 /\
  detach w2 = Throw (logic_error DETACH_DETACHED) w2 /\
  start w2 = Throw (logic_error ALREADY_STARTED) w2.
Proof.
  intros Hr Hd Hsc H1 H2 w2. subst w2.
  destruct w as [me e [id r d] sc lg].
  cbn [self errno this script log running detachstate] in *.
  subst r d sc. repeat split.
  life. cbn. rewrite H1. cbn. rewrite H2. reflexivity.
Qed.

Lemma detached_thread_rejects_join_witness :
  (start ;; detach)
    (World 7 0 (Obj 0 false JOINABLE) [succeeds; succeeds] []) =
  Return tt (World 7 0 (Obj 0 true DETACHED) [] []).
Proof.
  destruct (detached_thread_rejects_join
              (World 7 0 (Obj 0 false JOINABLE) [succeeds; succeeds] [])
              succeeds succeeds [] false (Timespec 0 0)
              eq_refl eq_refl eq_refl eq_refl eq_refl) as [H _].
  exact H.
Defined.

(** X28. cancel ends the life of the thread for the object: after start and
    cancel have succeeded the object is not running, a join throws
    NotRunning, a second cancel throws std::logic_error, and start is
    possible again. *)
Theorem cancel_ends_running (w : world obj) (r1 r2 r3 : reply obj)
  (rest : list (reply obj)) (rv : bool) :
  running (this w) = false -> detachstate (this w) = JOINABLE ->
  script w = r1 :: r2 :: r3 :: rest ->
  ret_code r1 = 0 -> ret_code r2 = 0 -> ret_code r3 = 0 ->
  let w2 := World (self w) (errno w) (Obj (exit_value r1) false JOINABLE)
                  (r3 :: rest) (log w) in
  (start ;; cancel) w = Return tt w2 /\
  join rv w2 = Throw NotRunning w2 /\
  cancel w2 = Throw (logic_error CANCEL_STOPPED) w2 /\
  start w2 =
  Return tt (World (self w) (errno w) (Obj (exit_value r3) true JOINABLE)
                   rest (log w)).
Proof.
  intros Hr Hd Hsc H1 H2 H3 w2. subst w2.
  destruct w as [me e [id r d] sc lg].
  cbn [self errno this script log running detachstate] in *.
  subst r d sc. repeat split.
  - life. cbn. rewrite H1. cbn. rewrite H2. reflexivity.
  - life. cbn. rewrite H3. reflexivity.
Qed.

Lemma cancel_ends_running_witness :
  (start ;; cancel)
    (World 7 0 (Obj 0 false JOINABLE) [succeeds; succeeds; succeeds] []) =
  Return tt (World 7 0 (Obj 0 false JOINABLE) [succeeds] []).
Proof.
  destruct (cancel_ends_running
              (World 7 0 (Obj 0 false JOINABLE)
                     [succeeds; succeeds; succeeds] [])
              succeeds succeeds succeeds [] false
              eq_refl eq_refl eq_refl eq_refl eq_refl eq_refl) as [H _].
  exact H.
Defined.

(** X29. A thread object constructed as DETACHED and started, the native calls
    succeeding, runs a thread that can neither be joined nor detached:
    join throws Detached and detach throws std::logic_error, no native call
    being made. *)
Theorem created_detached_never_joins (w : world obj) (r1 r2 r3 : reply obj)
  (rest : list (reply obj)) (rv : bool) :
  script w = r1 :: r2 :: r3 :: rest ->
  ret_code r1 = 0 -> ret_code r2 = 0 -> ret_code r3 = 0 ->
  let w2 := World (self w) (errno w) (Obj (exit_value r3) true DETACHED)
                  rest (log w) in
  (Thread_detachstate DETACHED ;; start) w = Return tt w2 /\
  join rv w2 = Throw Detached w2 /\
  detach w2 = Throw (logic_error DETACH_DETACHED) w2.
Proof.
  destruct w as [me e t sc lg]. cbn [self errno this script log].
  intros -> H1 H2 H3. cbn zeta. split; [|split; reflexivity].
  life. cbn. rewrite H1. cbn. rewrite H2. cbn. rewrite H3. reflexivity.
Qed.

Lemma created_detached_never_joins_witness :
  (Thread_detachstate DETACHED ;; start)
    (World 7 0 (Obj 0 false JOINABLE) [succeeds; succeeds; succeeds] []) =
  Return tt (World 7 0 (Obj 0 true DETACHED) [] []).
Proof.
  destruct (created_detached_never_joins
              (World 7 0 (Obj 0 false JOINABLE)
                     [succeeds; succeeds; succeeds] [])
              succeeds succeeds succeeds [] false
              eq_refl eq_refl eq_refl eq_refl) as [H _].
  exact H.
Defined.

End ThreadLifecycle.
